(** * The airdrop claim client: claim-signature codec

    A shallow embedding of [airdrop-signature.js] and of the submission
    path of [airdrop-claim.js], with the properties of their
    specification stated over it.

    Conventions.
    - A [Uint8Array] is a [list Z] whose elements lie in [0, 256); a store
      into it wraps its value modulo 256 and a store past its end is
      dropped, as typed arrays do.
    - A JavaScript number that the code handles is [NaN], an infinity or an
      integer-valued double; the 32-bit operators [&] and [>>] go through
      [ToInt32] as ECMAScript defines it.
    - A JavaScript string is a Rocq [string], read as its sequence of code
      points (all below 256). A destination given as a number reaches
      [isNaN], [parseInt] and the text encoder through its string form,
      so the destination is a string here.
    - The cryptographic collaborators (ethers, the polkadot packages) are
      the fields of a record; the outcome of a network step is an
      argument of the function that takes the step.
    - A function that calls collaborators yields the list of those calls
      together with its result or the error it threw. Calls to
      [console.log] are left out. *)

From Stdlib Require Import ZArith Lia List String Ascii Bool.
From stdpp Require Import base list.

Local Open Scope Z_scope.

(** ** Typed arrays *)

Module U8a.

Abbreviation bytes := (list Z) (only parsing).

Definition is_u8 (b : Z) : Prop := 0 <= b < 256.

Definition bytes_ok (d : bytes) : Prop := Forall is_u8 d.

(** [ToUint8] on an integer value. *)
Definition ToUint8 (v : Z) : Z := v mod 256.

(** [new Uint8Array(n)]: [n] zero bytes. *)
Definition create (n : nat) : bytes := replicate n 0.

(** [a[i] = v]. Out of range the store has no effect. *)
Definition store (a : bytes) (i : nat) (v : Z) : bytes :=
  <[i := ToUint8 v]> a.

(** The element-wise copy that [target.set(source, offset)] performs
    once its range check has passed. *)
Fixpoint blit (source : bytes) (offset : nat) (target : bytes) : bytes :=
  match source with
  | [] => target
  | b :: rest => blit rest (S offset) (<[offset := b]> target)
  end.

(** [target.set(source, offset)]: a [RangeError] ([None]) when the source
    does not fit, otherwise the copy. *)
Definition set (target source : bytes) (offset : nat) : option bytes :=
  if (length target <? offset + length source)%nat then None
  else Some (blit source offset target).

(** The integer that a byte sequence denotes, least-significant byte
    first. *)
Fixpoint le_value (d : bytes) : Z :=
  match d with
  | [] => 0
  | b :: rest => b + 256 * le_value rest
  end.

End U8a.

Import U8a.

(** ** Numbers and the 32-bit operators *)

Inductive number : Type :=
  | NaN
  | PosInfinity
  | NegInfinity
  | Num (z : Z).

(** [ToInt32]: zero for [NaN] and the infinities, otherwise the value
    modulo 2^32 read as a signed 32-bit integer. *)
Definition ToInt32 (x : number) : Z :=
  match x with
  | Num z =>
      let m := z mod 2 ^ 32 in
      if 2 ^ 31 <=? m then m - 2 ^ 32 else m
  | _ => 0
  end.

(** [x & y] *)
Definition js_bitand (x y : number) : Z :=
  Z.land (ToInt32 x) (ToInt32 y).

(** [x >> k] for a literal shift count [k]. *)
Definition js_sar (x : number) (k : Z) : Z :=
  Z.shiftr (ToInt32 x) (k mod 32).

(** ** [encodeU64] *)

Definition encodeU64 (num : number) : bytes :=
  let bytes := create 8 in
  let bytes := store bytes 0 (js_bitand num (Num 255)) in
  let bytes := store bytes 1 (js_bitand (Num (js_sar num 8)) (Num 255)) in
  let bytes := store bytes 2 (js_bitand (Num (js_sar num 16)) (Num 255)) in
  let bytes := store bytes 3 (js_bitand (Num (js_sar num 24)) (Num 255)) in
  let bytes := store bytes 4 0 in
  let bytes := store bytes 5 0 in
  let bytes := store bytes 6 0 in
  let bytes := store bytes 7 0 in
  bytes.

(** ** [toAsciiHex] *)

(** [n < 10 ? 48 + n : 97 + (n - 10)] *)
Definition hexDigitCode (n : Z) : Z :=
  if n <? 10 then 48 + n else 97 + (n - 10).

(** One iteration of the loop body at index [i]. *)
Definition toAsciiHex_body (data : bytes) (result : bytes) (i : nat) : bytes :=
  match data !! i with
  | Some byte =>
      let n1 := js_sar (Num byte) 4 in
      let result := store result (i * 2) (hexDigitCode n1) in
      let n2 := js_bitand (Num byte) (Num 15) in
      store result (i * 2 + 1) (hexDigitCode n2)
  | None => result
  end.

Definition toAsciiHex (data : bytes) : bytes :=
  foldl (toAsciiHex_body data)
        (create (length data * 2))
        (seq 0 (length data)).

(** The two character codes that the loop writes for one byte below
    256, in closed form. *)
Definition hexPair (b : Z) : bytes :=
  [hexDigitCode (b / 16); hexDigitCode (b mod 16)].

(** ** Strings: characters, decimal rendering, UTF-8 *)

Definition code (c : ascii) : Z := Z.of_nat (nat_of_ascii c).

Definition chars (s : string) : list ascii := list_ascii_of_string s.

(** The UTF-8 encoding of one code point below 256. *)
Definition utf8_encode_char (c : ascii) : bytes :=
  let n := code c in
  if n <? 128 then [n]
  else [Z.lor 192 (Z.shiftr n 6); Z.lor 128 (Z.land n 63)].

(** [new TextEncoder().encode(s)] *)
Definition TextEncoder_encode (s : string) : bytes :=
  flat_map utf8_encode_char (chars s).

(** [stringToU8a] of [@polkadot/util]: the UTF-8 bytes of the string (the
    empty array for the empty string). *)
Definition stringToU8a (s : string) : bytes :=
  match s with
  | EmptyString => create 0
  | _ => TextEncoder_encode s
  end.

Definition digitChar (d : Z) : ascii := ascii_of_nat (Z.to_nat (48 + d)).

(** The decimal digits of [n], most significant first, by repeated
    division; [fuel] bounds the number of digits. *)
Fixpoint decimalDigits (fuel : nat) (n : Z) (acc : list ascii) : list ascii :=
  match fuel with
  | O => acc
  | S fuel' =>
      let acc' := digitChar (n mod 10) :: acc in
      if n / 10 =? 0 then acc' else decimalDigits fuel' (n / 10) acc'
  end.

(** [n.toString()] for a length [n] (a non-negative integer). *)
Definition Number_toString (n : nat) : string :=
  let z := Z.of_nat n in
  string_of_list_ascii (decimalDigits (S (Z.to_nat (Z.log2 z))) z []).

(** ** [createEthereumSignableMessage] *)

Definition prefixText : string := "Pay RUSTs to the TEST account:".

(** ["\x19Ethereum Signed Message:\n"] *)
Definition headerText : string :=
  String (ascii_of_nat 25)
         ("Ethereum Signed Message:" ++ String (ascii_of_nat 10) EmptyString).

Definition createEthereumSignableMessage (what extra : bytes) : option bytes :=
  let prefix := stringToU8a prefixText in
  let len := (length prefix + length what + length extra)%nat in
  let lengthStr := Number_toString len in
  let lengthBytes := stringToU8a lengthStr in
  let header := stringToU8a headerText in
  let messageBuffer :=
    create (length header + length lengthBytes + length prefix
            + length what + length extra)%nat in
  let offset := 0%nat in
  messageBuffer ← set messageBuffer header offset;
  let offset := (offset + length header)%nat in
  messageBuffer ← set messageBuffer lengthBytes offset;
  let offset := (offset + length lengthBytes)%nat in
  messageBuffer ← set messageBuffer prefix offset;
  let offset := (offset + length prefix)%nat in
  messageBuffer ← set messageBuffer what offset;
  let offset := (offset + length what)%nat in
  messageBuffer ← set messageBuffer extra offset;
  Some messageBuffer.

(** ** String to number: [isNaN] and [parseInt] *)

Module StringNumeric.

(** White space and line terminators among the code points below 256:
    TAB, LF, VT, FF, CR, SP and NBSP. *)
Definition isStrWhiteSpaceChar (c : ascii) : bool :=
  let n := code c in
  (n =? 9) || (n =? 10) || (n =? 11) || (n =? 12) || (n =? 13)
  || (n =? 32) || (n =? 160).

Definition isDecimalDigit (c : ascii) : bool :=
  (48 <=? code c) && (code c <=? 57).

Definition isSign (c : ascii) : bool :=
  Ascii.eqb c "+" || Ascii.eqb c "-".

(** The value of a character as a digit in some radix up to 36. *)
Definition digitValue (c : ascii) : option Z :=
  let n := code c in
  if (48 <=? n) && (n <=? 57) then Some (n - 48)
  else if (97 <=? n) && (n <=? 122) then Some (n - 97 + 10)
  else if (65 <=? n) && (n <=? 90) then Some (n - 65 + 10)
  else None.

Definition isRadixDigit (R : Z) (c : ascii) : bool :=
  match digitValue c with
  | Some v => v <? R
  | None => false
  end.

Fixpoint skipWhile (p : ascii -> bool) (l : list ascii) : list ascii :=
  match l with
  | c :: rest => if p c then skipWhile p rest else l
  | [] => []
  end.

Fixpoint takeWhile (p : ascii -> bool) (l : list ascii) : list ascii :=
  match l with
  | c :: rest => if p c then c :: takeWhile p rest else []
  | [] => []
  end.

Definition nonEmpty (l : list ascii) : bool :=
  match l with [] => false | _ => true end.

(** Leading and trailing white space removed. *)
Definition trim (l : list ascii) : list ascii :=
  rev (skipWhile isStrWhiteSpaceChar
         (rev (skipWhile isStrWhiteSpaceChar l))).

(** What follows the mantissa: nothing, or an exponent indicator, an
    optional sign and at least one digit, up to the end. *)
Definition matchExponentPartOpt (l : list ascii) : bool :=
  match l with
  | [] => true
  | c :: rest =>
      if Ascii.eqb c "e" || Ascii.eqb c "E" then
        let digits :=
          match rest with
          | s :: rest' => if isSign s then rest' else rest
          | [] => rest
          end in
        nonEmpty digits && forallb isDecimalDigit digits
      else false
  end.

(** [StrUnsignedDecimalLiteral]: [Infinity], [digits . digits? exp?],
    [. digits exp?] or [digits exp?]. *)
Definition matchStrUnsignedDecimalLiteral (l : list ascii) : bool :=
  if String.eqb (string_of_list_ascii l) "Infinity" then true
  else
    let intPart := takeWhile isDecimalDigit l in
    let rest := skipWhile isDecimalDigit l in
    match intPart, rest with
    | _ :: _, c :: rest' =>
        if Ascii.eqb c "." then
          matchExponentPartOpt (skipWhile isDecimalDigit rest')
        else matchExponentPartOpt rest
    | _ :: _, [] => true
    | [], c :: rest' =>
        if Ascii.eqb c "." then
          nonEmpty (takeWhile isDecimalDigit rest')
          && matchExponentPartOpt (skipWhile isDecimalDigit rest')
        else false
    | [], [] => false
    end.

(** [StrDecimalLiteral]: an optional sign, then an unsigned literal. *)
Definition matchStrDecimalLiteral (l : list ascii) : bool :=
  match l with
  | c :: rest =>
      if isSign c then matchStrUnsignedDecimalLiteral rest
      else matchStrUnsignedDecimalLiteral l
  | [] => false
  end.

(** [NonDecimalIntegerLiteral]: [0b], [0o] or [0x] (either case) and at
    least one digit of that radix, up to the end. *)
Definition matchNonDecimalIntegerLiteral (l : list ascii) : bool :=
  match l with
  | z :: x :: digits =>
      if Ascii.eqb z "0" then
        if Ascii.eqb x "x" || Ascii.eqb x "X" then
          nonEmpty digits && forallb (isRadixDigit 16) digits
        else if Ascii.eqb x "o" || Ascii.eqb x "O" then
          nonEmpty digits && forallb (isRadixDigit 8) digits
        else if Ascii.eqb x "b" || Ascii.eqb x "B" then
          nonEmpty digits && forallb (isRadixDigit 2) digits
        else false
      else false
  | _ => false
  end.

(** Whether [StringToNumber] yields a number other than [NaN]: the
    trimmed string is empty (the number is 0) or is a
    [StrNumericLiteral]. *)
Definition isStringNumericLiteral (s : string) : bool :=
  match trim (chars s) with
  | [] => true
  | l => matchStrDecimalLiteral l || matchNonDecimalIntegerLiteral l
  end.

(** The integer denoted by a digit sequence in radix [R]. *)
Definition digitsValue (R : Z) (l : list ascii) : Z :=
  fold_left (fun acc c => acc * R + default 0 (digitValue c)) l 0.

(** Rounding of a non-negative integer to the nearest value with a
    53-bit significand, ties to even. *)
Definition roundSignificand (m : Z) : Z :=
  let bits := Z.log2 m + 1 in
  if bits <=? 53 then m
  else
    let e := bits - 53 in
    let q := Z.shiftr m e in
    let r := m mod 2 ^ e in
    let half := 2 ^ (e - 1) in
    let q' :=
      if half <? r then q + 1
      else if r =? half then (if Z.odd q then q + 1 else q)
      else q in
    q' * 2 ^ e.

(** The Number value for an integer: the nearest double, an infinity
    past the largest one. *)
Definition numberOfInteger (z : Z) : number :=
  let m := roundSignificand (Z.abs z) in
  if 2 ^ 1024 <=? m then (if z <? 0 then NegInfinity else PosInfinity)
  else Num (Z.sgn z * m).

End StringNumeric.

Import StringNumeric.

(** [isNaN(s)] for a string [s]. *)
Definition isNaN (s : string) : bool := negb (isStringNumericLiteral s).

(** [parseInt(s)] with no radix argument. *)
Definition parseInt (s : string) : number :=
  let str := skipWhile isStrWhiteSpaceChar (chars s) in
  let sign := match str with
              | c :: _ => if Ascii.eqb c "-" then -1 else 1
              | [] => 1
              end in
  let str := match str with
             | c :: rest => if isSign c then rest else str
             | [] => str
             end in
  let '(R, str) :=
    match str with
    | z :: x :: rest =>
        if Ascii.eqb z "0" && (Ascii.eqb x "x" || Ascii.eqb x "X")
        then (16, rest) else (10, str)
    | _ => (10, str)
    end in
  let digits := takeWhile (isRadixDigit R) str in
  match digits with
  | [] => NaN
  | _ => numberOfInteger (sign * digitsValue R digits)
  end.

(** ** Hex strings: [ethers.hexlify], [ethers.getBytes], [Buffer.from] *)

Module Hex.

(** The character of ["0123456789abcdef"] at index [n]. *)
Definition hexCharacter (n : Z) : ascii :=
  nth (Z.to_nat n) (chars "0123456789abcdef") "0"%char.

(** The value of a hexadecimal digit of either case. *)
Definition unhex (c : ascii) : option Z :=
  match digitValue c with
  | Some v => if v <? 16 then Some v else None
  | None => None
  end.

(** [ethers.hexlify(data)]: ["0x"] and two lowercase digits per byte. *)
Definition hexlify (data : bytes) : string :=
  string_of_list_ascii
    (chars "0x"
     ++ flat_map (fun v => [hexCharacter (Z.shiftr (Z.land v 240) 4);
                            hexCharacter (Z.land v 15)]) data).

Fixpoint decodePairs (l : list ascii) : option bytes :=
  match l with
  | [] => Some []
  | a :: b :: rest =>
      match unhex a, unhex b, decodePairs rest with
      | Some x, Some y, Some d => Some (x * 16 + y :: d)
      | _, _, _ => None
      end
  | _ => None
  end.

(** [ethers.getBytes(value)] for a string: the string must be ["0x"]
    and whole pairs of hex digits (either case), or the call throws. *)
Definition getBytes (value : string) : option bytes :=
  match chars value with
  | z :: x :: digits =>
      if Ascii.eqb z "0" && (Ascii.eqb x "x" || Ascii.eqb x "X")
      then decodePairs digits else None
  | _ => None
  end.

(** [Buffer.from(s, 'hex')]: pairs of hex digits are decoded up to the
    first pair that is incomplete or has a character that is no hex
    digit; what follows is dropped. *)
Fixpoint Buffer_from_hex (l : list ascii) : bytes :=
  match l with
  | a :: b :: rest =>
      match unhex a, unhex b with
      | Some x, Some y => x * 16 + y :: Buffer_from_hex rest
      | _, _ => []
      end
  | _ => []
  end.

End Hex.

Import Hex.

(** ** Outcomes of calls and the record of collaborator calls *)

Inductive error : Type :=
  | InvalidPrivateKey      (* thrown by [new ethers.Wallet] / [SigningKey] *)
  | RangeError             (* [Uint8Array.prototype.set] *)
  | InvalidBytesLike       (* [ethers.getBytes] *)
  | InvalidDigestLength    (* [SigningKey.sign] *)
  | SigningFailed          (* the curve library rejected the call *)
  | SignatureTypeError     (* 'Signature must be a hex string or Uint8Array' *)
  | InvalidSignatureLength (n : nat)
  | BigIntError
  | SubmissionFailed.

Inductive event : Type :=
  | EWallet (privateKey : string)
  | EConnect (endpoint : string)
  | EKeccak256 (data : bytes)
  | ESigningKey (privateKey : string)
  | ESign (privateKey : string) (digest : bytes)
  | ESend (accountBytes signatureBytes : bytes).

(** A call returns, throws, or stays pending: it awaits a promise that
    is never settled, and neither returns nor throws. *)
Inductive outcome (A : Type) : Type :=
  | Returned (a : A)
  | Threw (e : error)
  | Pending.

Arguments Returned {A} a.
Arguments Threw {A} e.
Arguments Pending {A}.

(** A computation: the collaborator calls it made, in order, and how it
    ended. *)
Definition run (A : Type) : Type := (list event * outcome A)%type.

Definition ret {A} (a : A) : run A := ([], Returned a).

Definition throw {A} (e : error) : run A := ([], Threw e).

Definition call (ev : event) : run unit := ([ev], Returned tt).

(** An [await] on a promise that is never settled. *)
Definition pending {A} : run A := ([], Pending).

Definition bind {A B} (m : run A) (k : A -> run B) : run B :=
  match m with
  | (t, Returned a) => let '(t', r) := k a in (t ++ t', r)
  | (t, Threw e) => (t, Threw e)
  | (t, Pending) => (t, Pending)
  end.

(** A fallible library call: its exception when it has no result. *)
Definition orThrow {A} (o : option A) (e : error) : run A :=
  match o with
  | Some a => ret a
  | None => throw e
  end.

Global Instance run_ret : MRet run := @ret.
Global Instance run_bind : MBind run := fun A B k m => bind m k.

Definition trace {A} (m : run A) : list event := fst m.
Definition result {A} (m : run A) : outcome A := snd m.

(** ** The collaborators *)

Record Signature : Type := {
  sig_r : string;    (* [signature.r], a hex string *)
  sig_s : string;    (* [signature.s], a hex string *)
  sig_v : Z          (* [signature.v] *)
}.

Record Wallet : Type := {
  address : string;
  privateKey : string
}.

Record Collaborators : Type := {
  (** [new ethers.Wallet(key)]; no value when the constructor throws. *)
  Wallet_new : string -> option Wallet;
  (** [new ethers.SigningKey(key)] accepts the key. *)
  SigningKey_valid : string -> bool;
  (** [decodeAddress(s)]; no value when it throws. *)
  decodeAddress : string -> option bytes;
  (** The hash function behind [ethers.keccak256]. *)
  keccak_256 : bytes -> bytes;
  (** The curve signing behind [SigningKey.sign]; no value when it
      throws. *)
  secp256k1_sign : string -> bytes -> option Signature
}.

(** ** [generateClaimSignature] *)

Inductive tier : Type := NumericId | ChainAddress | RawText.

(** The choice of encoding for the destination (the [if] on [isNaN] and
    the [try]/[catch] around [decodeAddress]): the branch taken and the
    bytes it assigns to [destAccount]. *)
Definition resolveDestAccount (C : Collaborators) (substrateAddress : string)
  : tier * bytes :=
  if negb (isNaN substrateAddress) then
    let accountId := parseInt substrateAddress in
    (NumericId, encodeU64 accountId)
  else
    match decodeAddress C substrateAddress with
    | Some publicKey => (ChainAddress, publicKey)
    | None => (RawText, TextEncoder_encode substrateAddress)
    end.

(** [ethers.keccak256(data)]: the digest as a hex string. *)
Definition ethers_keccak256 (C : Collaborators) (data : bytes) : run string :=
  call (EKeccak256 data);;
  mret (hexlify (keccak_256 C data)).

(** [signingKey.sign(digest)]: the digest must be 32 bytes long. *)
Definition SigningKey_sign (C : Collaborators) (key : string) (digest : bytes)
  : run Signature :=
  call (ESign key digest);;
  if (length digest =? 32)%nat
  then orThrow (secp256k1_sign C key digest) SigningFailed
  else throw InvalidDigestLength.

(** The 65-byte array built from the library's signature. *)
Definition assembleSignatureBytes (sg : Signature) : run bytes :=
  let signatureBytes := create 65 in
  rBytes ← orThrow (getBytes (sig_r sg)) InvalidBytesLike;
  signatureBytes ← orThrow (set signatureBytes rBytes 0) RangeError;
  sBytes ← orThrow (getBytes (sig_s sg)) InvalidBytesLike;
  signatureBytes ← orThrow (set signatureBytes sBytes 32) RangeError;
  let signatureBytes :=
    store signatureBytes 64 (if sig_v sg =? 27 then 0 else 1) in
  mret signatureBytes.

Record ClaimSignature : Type := {
  signature : string;
  ethereumAddress : string
}.

Definition rpcEndpoint : string := "wss://rpc.polkadot.io".

(** [connected] tells whether the connection to the endpoint is
    established in this call. [ApiPromise.create], called as it is here,
    resolves once the connection is up and is never rejected: while the
    endpoint cannot be reached the awaited promise stays pending, and so
    does the call. *)
Definition generateClaimSignature (C : Collaborators) (connected : bool)
    (ethereumPrivateKey substrateAddress : string) : run ClaimSignature :=
  call (EWallet ethereumPrivateKey);;
  wallet ← orThrow (Wallet_new C ethereumPrivateKey) InvalidPrivateKey;
  let ethereumAddress := address wallet in
  call (EConnect rpcEndpoint);;
  (if connected then mret tt else pending);;
  let destAccount := snd (resolveDestAccount C substrateAddress) in
  let accountHexEncoded := toAsciiHex destAccount in
  message ← orThrow (createEthereumSignableMessage accountHexEncoded [])
                    RangeError;
  messageHash ← ethers_keccak256 C message;
  orThrow (getBytes messageHash) InvalidBytesLike;;
  call (ESigningKey (privateKey wallet));;
  (if SigningKey_valid C (privateKey wallet) then mret tt
   else throw InvalidPrivateKey);;
  messageHashBytes ← orThrow (getBytes messageHash) InvalidBytesLike;
  sg ← SigningKey_sign C (privateKey wallet) messageHashBytes;
  signatureBytes ← assembleSignatureBytes sg;
  let formattedSignature := hexlify signatureBytes in
  mret {| signature := formattedSignature;
          ethereumAddress := ethereumAddress |}.

(** ** [submitSignature] *)

Inductive signatureArg : Type :=
  | SigString (s : string)
  | SigUint8Array (b : bytes)
  | SigOther.

(** [signature.startsWith('0x') ? signature.slice(2) : signature] *)
Definition cleanSig (s : string) : list ascii :=
  match chars s with
  | z :: x :: rest =>
      if Ascii.eqb z "0" && Ascii.eqb x "x" then rest else chars s
  | l => l
  end.

(** One iteration of the loop that writes the account id: byte [i] is
    [n & 255], then [n >>= 8]. *)
Definition accountBytes_body (st : bytes * Z) (i : nat) : bytes * Z :=
  let '(accountBytes, n) := st in
  (store accountBytes i (Z.land n 255), Z.shiftr n 8).

Definition accountBytesOf (destAccountBigInt : Z) : bytes :=
  fst (foldl accountBytes_body (create 32, destAccountBigInt) (seq 0 8)).

(** [destAccount] is the integer that [BigInt(destAccount)] yields, or no
    value when that conversion throws; [chain] is what the chain
    interaction from [tx.send()] on yields: the transaction hash, or no
    value when one of its steps rejects. *)
Definition submitSignature (chain : option string) (destAccount : option Z)
    (signature : signatureArg) : run string :=
  signatureBytes ←
    match signature with
    | SigString s => mret (Buffer_from_hex (cleanSig s))
    | SigUint8Array b => mret b
    | SigOther => throw SignatureTypeError
    end;
  (if negb (length signatureBytes =? 65)%nat
   then throw (InvalidSignatureLength (length signatureBytes))
   else mret tt);;
  destAccountBigInt ← orThrow destAccount BigIntError;
  let accountBytes := accountBytesOf destAccountBigInt in
  call (ESend accountBytes signatureBytes);;
  orThrow chain SubmissionFailed.

(** ** Notions of the specification

    These definitions follow the specification's words, not the code;
    the theorems compare the code with them. *)

Module Spec.

(** The character code of the lowercase hex digit for a nibble:
    ['0'..'9'] for 0-9, ['a'..'f'] for 10-15. *)
Definition lowercaseHexCode (nibble : Z) : Z :=
  code (nth (Z.to_nat nibble) (chars "0123456789abcdef") "0"%char).

(** The nibble that a lowercase hex character code stands for. *)
Definition nibbleOfCode (c : Z) : option Z :=
  if (48 <=? c) && (c <=? 57) then Some (c - 48)
  else if (97 <=? c) && (c <=? 102) then Some (c - 97 + 10)
  else None.

(** The decoder of lowercase hex text: two character codes per byte,
    high nibble first. *)
Fixpoint fromAsciiHex (x : bytes) : option bytes :=
  match x with
  | [] => Some []
  | h :: l :: rest =>
      match nibbleOfCode h, nibbleOfCode l, fromAsciiHex rest with
      | Some a, Some b, Some d => Some (a * 16 + b :: d)
      | _, _, _ => None
      end
  | _ => None
  end.

(** A valid hex-text byte sequence: one that the decoder accepts. *)
Definition isHexText (x : bytes) : Prop := is_Some (fromAsciiHex x).

(** The number that a sequence of decimal character codes denotes. *)
Definition decimalValue (digits : bytes) : Z :=
  fold_left (fun acc c => acc * 10 + (c - 48)) digits 0.

Definition isDigitCode (c : Z) : Prop := 48 <= c <= 57.

(** No leading zero: the first character is not ['0']. *)
Definition noLeadingZero (digits : bytes) : Prop :=
  match digits with
  | c :: _ => c <> 48
  | [] => False
  end.

(** A string that parses fully as a non-negative integer representable
    in 64 bits: decimal digits only, at least one, value below 2^64. *)
Definition parsesAsU64 (s : string) : bool :=
  nonEmpty (chars s)
  && forallb isDecimalDigit (chars s)
  && (digitsValue 10 (chars s) <? 2 ^ 64).

(** The integer that a byte sequence denotes, most significant byte
    first. *)
Definition be_value (d : bytes) : Z :=
  fold_left (fun acc b => acc * 256 + b) d 0.

(** The integer that a ["0x"]-prefixed hex string denotes. *)
Definition hexStringValue (s : string) : Z :=
  digitsValue 16 (drop 2 (chars s)).

End Spec.

(** ** What the libraries guarantee *)

(** [keccak_256] returns a byte array. *)
Definition digest_ok (C : Collaborators) : Prop :=
  forall data, bytes_ok (keccak_256 C data).

(** A signature of the curve library: [r] and [s] are the hex strings of
    32 bytes each and [v] is 27 or 28. *)
Definition signature_ok (sg : Signature) : Prop :=
  exists r s,
    sig_r sg = hexlify r /\ length r = 32%nat /\ bytes_ok r /\
    sig_s sg = hexlify s /\ length s = 32%nat /\ bytes_ok s /\
    (sig_v sg = 27 \/ sig_v sg = 28).

(** ** A stand-in for the collaborators

    It has the shape of the interface (a byte array as digest, 32-byte
    [r] and [s], [v] in {27, 28}) and no cryptographic content; the
    pipeline is evaluated on concrete inputs with it. *)

Module Sample.

Definition keyLooksValid (key : string) : bool :=
  (String.length key =? 66)%nat.

Definition collaborators : Collaborators := {|
  Wallet_new key :=
    if keyLooksValid key
    then Some {| address := "0x00000000000000000000000000000000000000aa";
                 privateKey := key |}
    else None;
  SigningKey_valid key := keyLooksValid key;
  decodeAddress s := None;
  keccak_256 data := replicate 32 (Z.of_nat (length data) mod 256);
  secp256k1_sign key digest :=
    Some {| sig_r := hexlify digest;
            sig_s := hexlify (replicate 32 1);
            sig_v := 28 |}
|}.

Definition privateKeyText : string :=
  "0x9116d6c6a9c830c06af62af6d4101b566e2466d88510b6c11d655545c74790a4".

(** A signature argument of 131 hex digits after the ["0x"]. *)
Definition oddHexSignature : string :=
  string_of_list_ascii
    (chars "0x" ++ concat (replicate 65 (chars "11")) ++ chars "f").

End Sample.

(** ** [sendAndWaitForSuccess]

    The promise that the function returns is settled by the first call of
    [resolve] or [reject]; later calls have no effect. The status
    callback runs once per status update of the transaction. *)

Module Register.

(** The first element of [event.data] of a failed extrinsic, as far as
    the callback looks at it: [dispatchError.isModule], and whether
    [api.registry.findMetaError] knows the module error (it throws when
    it does not). *)
Record dispatchError : Type := {
  isModule : bool;
  metaErrorKnown : bool
}.

(** [ev_data] has no value when [const [dispatchError] = event.data] or
    the access to [dispatchError.isModule] throws. *)
Record chainEvent : Type := {
  ev_section : string;
  ev_method : string;
  ev_data : option dispatchError
}.

Record statusUpdate : Type := {
  isInBlock : bool;
  isFinalized : bool;
  events : list chainEvent
}.

Inductive rejection : Type :=
  | TransactionFailed    (* [new Error('Transaction failed')] *)
  | SignAndSendError.    (* what [signAndSend] rejected with *)

Inductive promise : Type :=
  | Pending
  | Fulfilled
  | Rejected (e : rejection).

Definition resolve (p : promise) : promise :=
  match p with
  | Pending => Fulfilled
  | _ => p
  end.

Definition reject (e : rejection) (p : promise) : promise :=
  match p with
  | Pending => Rejected e
  | _ => p
  end.

(** Whether the statements between the test on [ExtrinsicFailed] and
    [reject(...)] complete: the dispatch error is there and, when it is a
    module error, the registry knows it. *)
Definition decodes (ev : chainEvent) : bool :=
  match ev_data ev with
  | Some d => negb (isModule d) || metaErrorKnown d
  | None => false
  end.

(** [events.forEach(...)]: the promise after the loop, and whether an
    exception left the loop (the remaining events are then skipped). *)
Fixpoint forEachEvent (p : promise) (evs : list chainEvent)
  : promise * bool :=
  match evs with
  | [] => (p, false)
  | ev :: rest =>
      if String.eqb (ev_section ev) "system" then
        if String.eqb (ev_method ev) "ExtrinsicSuccess" then
          forEachEvent p rest
        else if String.eqb (ev_method ev) "ExtrinsicFailed" then
          if decodes ev
          then forEachEvent (reject TransactionFailed p) rest
          else (p, true)
        else forEachEvent p rest
      else forEachEvent p rest
  end.

(** The callback given to [signAndSend]: the promise after one run of
    it. When an exception leaves the loop, [resolve()] is not reached. *)
Definition statusCallback (checkEvents : bool) (p : promise)
    (u : statusUpdate) : promise :=
  if isInBlock u || isFinalized u then
    if checkEvents then
      let '(p, threw) := forEachEvent p (events u) in
      if threw then p else resolve p
    else resolve p
  else p.

(** What [signAndSend] does with the callback: it rejects, and the
    callback never runs, or the callback runs on status updates, in
    order. *)
Inductive subscription : Type :=
  | SendRejected
  | StatusUpdates (updates : list statusUpdate).

Definition sendAndWaitForSuccess (checkEvents : bool) (sub : subscription)
  : promise :=
  match sub with
  | SendRejected => reject SignAndSendError Pending
  | StatusUpdates updates => foldl (statusCallback checkEvents) Pending updates
  end.

(** An event on which the callback goes for [reject]. *)
Definition isExtrinsicFailed (ev : chainEvent) : bool :=
  String.eqb (ev_section ev) "system"
  && String.eqb (ev_method ev) "ExtrinsicFailed".

Definition included (u : statusUpdate) : bool :=
  isInBlock u || isFinalized u.

End Register.

(** ** Two runs of the signing call

    Two runs use the same libraries; the signing primitive may draw a
    different nonce in each, so that the two runs are given two records
    that differ at most in the signatures that [secp256k1_sign] returns.
    [recover digest signatureBytes] stands for the recovery of the
    signer's address from a digest and a 65-byte signature
    [r ++ s ++ [recoveryId]] with the recovery id 0 or 1. *)



(** A second stand-in, which signs as if with another nonce, and a
    stand-in for the recovery that looks at the recovery id only. *)
Module OtherNonce.

Definition collaborators : Collaborators := {|
  Wallet_new := Wallet_new Sample.collaborators;
  SigningKey_valid := SigningKey_valid Sample.collaborators;
  decodeAddress := decodeAddress Sample.collaborators;
  keccak_256 := keccak_256 Sample.collaborators;
  secp256k1_sign key digest :=
    Some {| sig_r := hexlify (replicate 32 2);
            sig_s := hexlify digest;
            sig_v := 27 |}
|}.


End OtherNonce.

(** * Properties *)

(** ** Typed arrays *)

Section U8aFacts.

Implicit Types (d source target : bytes).

Lemma length_create n : length (create n) = n.
Proof. apply length_replicate. Qed.

Lemma create_add n m : create (n + m) = create n ++ create m.
Proof. apply replicate_add. Qed.

Lemma length_store a i v : length (store a i v) = length a.
Proof. apply length_insert. Qed.

Lemma length_blit source : forall offset target,
  length (blit source offset target) = length target.
Proof.
  induction source as [|b rest IH]; intros offset target; simpl.
  - reflexivity.
  - rewrite IH. apply length_insert.
Qed.

(** Copying [source] over a region of its own length that starts right
    after [pre] replaces exactly that region. *)
Lemma blit_region source : forall pre old rest,
  length old = length source ->
  blit source (length pre) (pre ++ old ++ rest) = pre ++ source ++ rest.
Proof.
  induction source as [|b src IH]; intros pre old rest Hlen.
  - destruct old; [reflexivity | discriminate].
  - destruct old as [|c old]; [discriminate|].
    simpl in Hlen. injection Hlen as Hlen. cbn [blit].
    rewrite insert_app_r_alt by lia. rewrite Nat.sub_diag. simpl.
    replace (S (length pre)) with (length (pre ++ [b]))
      by (rewrite length_app; simpl; lia).
    replace (pre ++ b :: old ++ rest) with ((pre ++ [b]) ++ old ++ rest)
      by (rewrite <- app_assoc; reflexivity).
    rewrite (IH _ _ _ Hlen). rewrite <- app_assoc. reflexivity.
Qed.

Lemma set_region target_pre old rest source :
  length old = length source ->
  set (target_pre ++ old ++ rest) source (length target_pre)
  = Some (target_pre ++ source ++ rest).
Proof.
  intros Hlen. unfold set.
  rewrite !length_app, Hlen.
  destruct (Nat.ltb_spec (length target_pre + (length source + length rest))
                         (length target_pre + length source)) as [H|H];
    [lia|].
  f_equal. apply blit_region. exact Hlen.
Qed.

Lemma bytes_ok_app d1 d2 : bytes_ok d1 -> bytes_ok d2 -> bytes_ok (d1 ++ d2).
Proof. unfold bytes_ok. intros. apply Forall_app. split; assumption. Qed.

Lemma bytes_ok_create n : bytes_ok (create n).
Proof.
  unfold bytes_ok, create. apply Forall_replicate. unfold is_u8. lia.
Qed.

End U8aFacts.

(** ** The 32-bit operators *)

Section Int32Facts.

Lemma ToInt32_cases z :
  ToInt32 (Num z) = z mod 2 ^ 32 \/ ToInt32 (Num z) = z mod 2 ^ 32 - 2 ^ 32.
Proof.
  unfold ToInt32. destruct (2 ^ 31 <=? z mod 2 ^ 32); auto.
Qed.

Lemma ToInt32_small z : 0 <= z < 2 ^ 31 -> ToInt32 (Num z) = z.
Proof.
  intros H. unfold ToInt32.
  rewrite (Z.mod_small z (2 ^ 32)) by lia.
  destruct (Z.leb_spec (2 ^ 31) z); [lia | reflexivity].
Qed.

(** A property of the sixteen nibbles is checked nibble by nibble. *)
Lemma nibble_ind (P : Z -> Prop) :
  (forall k, (k < 16)%nat -> P (Z.of_nat k)) ->
  forall n, 0 <= n < 16 -> P n.
Proof.
  intros H n Hn. rewrite <- (Z2Nat.id n) by lia. apply H. lia.
Qed.

Lemma land_255 x : Z.land x 255 = x mod 256.
Proof. change 255 with (Z.ones 8). rewrite Z.land_ones by lia. reflexivity. Qed.

Lemma land_15 x : Z.land x 15 = x mod 16.
Proof. change 15 with (Z.ones 4). rewrite Z.land_ones by lia. reflexivity. Qed.

(** The byte of [num] at position [k] (0 to 3), as [(num >> 8k) & 0xFF]
    computes it, is that byte of [num mod 2^32]. *)
Lemma shifted_byte z k :
  0 <= k <= 3 ->
  js_bitand (Num (js_sar (Num z) (8 * k))) (Num 255)
  = (z mod 2 ^ 32 / 2 ^ (8 * k)) mod 256.
Proof.
  intros Hk. unfold js_bitand, js_sar.
  rewrite (ToInt32_small 255) by lia. rewrite land_255.
  rewrite (Z.mod_small (8 * k) 32) by lia.
  rewrite Z.shiftr_div_pow2 by lia.
  assert (Hm : 0 <= z mod 2 ^ 32 < 2 ^ 32) by (apply Z.mod_pos_bound; lia).
  set (m := z mod 2 ^ 32) in *.
  assert (Hq : 0 <= m / 2 ^ (8 * k) < 2 ^ 32).
  { split; [apply Z.div_pos; lia|].
    apply Z.div_lt_upper_bound; [lia|].
    assert (1 <= 2 ^ (8 * k)) by (apply Z.pow_le_mono_r with (b := 0) (c := 8 * k) (a := 2); lia).
    nia. }
  assert (Hs : ToInt32 (Num z) / 2 ^ (8 * k) = m / 2 ^ (8 * k)
               \/ ToInt32 (Num z) / 2 ^ (8 * k)
                  = m / 2 ^ (8 * k) - 2 ^ (32 - 8 * k)).
  { destruct (ToInt32_cases z) as [->| ->]; [left; reflexivity | right].
    fold m.
    replace (m - 2 ^ 32) with (m + (- 2 ^ (32 - 8 * k)) * 2 ^ (8 * k)).
    - rewrite Z.div_add by lia. lia.
    - rewrite Z.mul_opp_l, <- Z.pow_add_r by lia.
      replace (32 - 8 * k + 8 * k) with 32 by lia. lia. }
  assert (H256 : exists c, 2 ^ (32 - 8 * k) = 256 * c).
  { exists (2 ^ (24 - 8 * k)).
    change 256 with (2 ^ 8). rewrite <- Z.pow_add_r by lia.
    f_equal. lia. }
  destruct H256 as [c Hc].
  assert (Hw : forall a, 0 <= a < 2 ^ 32 ->
               ToInt32 (Num a) mod 256 = a mod 256).
  { intros a Ha. unfold ToInt32. rewrite (Z.mod_small a (2 ^ 32)) by lia.
    destruct (2 ^ 31 <=? a); [|reflexivity].
    replace (a - 2 ^ 32) with (a + (- 2 ^ 24) * 256) by lia.
    apply Z.mod_add. lia. }
  destruct Hs as [-> | ->].
  - apply Hw. exact Hq.
  - rewrite Hc.
    unfold ToInt32.
    set (q := m / 2 ^ (8 * k)) in *.
    assert (Hx : (q - 256 * c) mod 2 ^ 32 mod 256 = q mod 256).
    { rewrite Z.mod_mod_divide by (exists (2 ^ 24); reflexivity).
  replace (q - 256 * c) with (q + (- c) * 256) by lia.
  apply Z.mod_add. lia. }
    destruct (2 ^ 31 <=? (q - 256 * c) mod 2 ^ 32).
    + replace ((q - 256 * c) mod 2 ^ 32 - 2 ^ 32)
        with ((q - 256 * c) mod 2 ^ 32 + (- 2 ^ 24) * 256) by lia.
      rewrite Z.mod_add by lia. exact Hx.
    + exact Hx.
Qed.

End Int32Facts.

(** ** [encodeU64] *)

Section EncodeU64Facts.

Lemma low_byte z :
  js_bitand (Num z) (Num 255) = (z mod 2 ^ 32) mod 256.
Proof.
  unfold js_bitand. rewrite (ToInt32_small 255) by lia. rewrite land_255.
  destruct (ToInt32_cases z) as [-> | ->]; [reflexivity|].
  replace (z mod 2 ^ 32 - 2 ^ 32) with (z mod 2 ^ 32 + (- 2 ^ 24) * 256) by lia.
  apply Z.mod_add. lia.
Qed.

(** The bytes that [encodeU64] writes: the four low bytes of the 32-bit
    wrap of the number, then four zero bytes. *)
Lemma encodeU64_bytes z :
  encodeU64 (Num z) =
  let m := z mod 2 ^ 32 in
  [m mod 256; (m / 2 ^ 8) mod 256; (m / 2 ^ 16) mod 256; (m / 2 ^ 24) mod 256;
   0; 0; 0; 0].
Proof.
  unfold encodeU64, store, create, ToUint8.
  assert (H1 : js_bitand (Num (js_sar (Num z) 8)) (Num 255)
               = (z mod 2 ^ 32 / 2 ^ 8) mod 256)
    by (apply (shifted_byte z 1); lia).
  assert (H2 : js_bitand (Num (js_sar (Num z) 16)) (Num 255)
               = (z mod 2 ^ 32 / 2 ^ 16) mod 256)
    by (apply (shifted_byte z 2); lia).
  assert (H3 : js_bitand (Num (js_sar (Num z) 24)) (Num 255)
               = (z mod 2 ^ 32 / 2 ^ 24) mod 256)
    by (apply (shifted_byte z 3); lia).
  rewrite H1, H2, H3, (low_byte z).
  rewrite !Z.mod_mod by lia.
  reflexivity.
Qed.

Lemma encodeU64_length num : length (encodeU64 num) = 8%nat.
Proof. unfold encodeU64. rewrite !length_store. apply length_create. Qed.

Lemma encodeU64_le_value z :
  le_value (encodeU64 (Num z)) = z mod 2 ^ 32.
Proof.
  rewrite encodeU64_bytes. cbv zeta.
  assert (Hm : 0 <= z mod 2 ^ 32 < 2 ^ 32) by (apply Z.mod_pos_bound; lia).
  set (m := z mod 2 ^ 32) in *. clearbody m.
  unfold le_value.
  change (2 ^ 8) with 256. change (2 ^ 16) with (256 * 256).
  change (2 ^ 24) with (256 * 256 * 256).
  change (2 ^ 32) with 4294967296 in Hm.
  rewrite <- !Z.div_div by lia.
  assert (H3 : m / 256 / 256 / 256 mod 256 = m / 256 / 256 / 256).
  { apply Z.mod_small. split.
    - repeat apply Z.div_pos; lia.
    - repeat (apply Z.div_lt_upper_bound; [lia|]). lia. }
  rewrite H3.
  pose proof (Z.div_mod m 256 ltac:(lia)).
  pose proof (Z.div_mod (m / 256) 256 ltac:(lia)).
  pose proof (Z.div_mod (m / 256 / 256) 256 ltac:(lia)).
  lia.
Qed.

Lemma encodeU64_not_finite num :
  (forall z, num <> Num z) -> encodeU64 num = [0; 0; 0; 0; 0; 0; 0; 0].
Proof.
  intros H. destruct num; try reflexivity. exfalso. eapply H. reflexivity.
Qed.

End EncodeU64Facts.

Example encodeU64_42 : encodeU64 (Num 42) = [42; 0; 0; 0; 0; 0; 0; 0].
Proof. reflexivity. Qed.

Example encodeU64_minus_one :
  encodeU64 (Num (-1)) = [255; 255; 255; 255; 0; 0; 0; 0].
Proof. reflexivity. Qed.

(** C1 (the code departs from the specification). [encodeU64] writes only the low
    32 bits: at 2^32, a value below 2^64, the eight bytes are all zero and
    read back as 0. In general the bytes read back as the number modulo
    2^32, which is the number itself below 2^32 only. *)
Theorem encodeU64_drops_high_bits :
  encodeU64 (Num (2 ^ 32)) = [0; 0; 0; 0; 0; 0; 0; 0]
  /\ le_value (encodeU64 (Num (2 ^ 32))) <> 2 ^ 32
  /\ (forall n, le_value (encodeU64 (Num n)) = n mod 2 ^ 32)
  /\ (forall C, resolveDestAccount C "4294967296"
                = (NumericId, [0; 0; 0; 0; 0; 0; 0; 0])).
Proof.
  split; [reflexivity|]. split; [rewrite encodeU64_le_value; discriminate|].
  split; [apply encodeU64_le_value|]. intros C. reflexivity.
Qed.

(** Below 2^32 the encoding is the eight-byte little-endian one. *)
Lemma encodeU64_32bit n :
  0 <= n < 2 ^ 32 ->
  length (encodeU64 (Num n)) = 8%nat
  /\ bytes_ok (encodeU64 (Num n))
  /\ le_value (encodeU64 (Num n)) = n.
Proof.
  intros Hn. split; [apply encodeU64_length|]. split.
  - rewrite encodeU64_bytes. cbv zeta. unfold bytes_ok, is_u8.
    repeat (apply Forall_cons; split;
            [first [lia | apply Z.mod_pos_bound; lia]|]).
    apply Forall_nil. trivial.
  - rewrite encodeU64_le_value. apply Z.mod_small. exact Hn.
Qed.

(** C10. The empty specifier passes the numeric test ([isNaN] of the empty string is
    false), is parsed to [NaN] and encoded as eight zero bytes, which is
    also the encoding of the specifier ["0"] and of the number 0; it
    reaches neither the address tier nor the raw-text tier and nothing is
    thrown. *)
Theorem empty_specifier_is_numeric_zero :
  isNaN EmptyString = false
  /\ forall C : Collaborators,
       resolveDestAccount C EmptyString = (NumericId, [0; 0; 0; 0; 0; 0; 0; 0])
       /\ resolveDestAccount C EmptyString = resolveDestAccount C "0"
       /\ snd (resolveDestAccount C EmptyString) = encodeU64 (Num 0).
Proof.
  split; [reflexivity|]. intros C. repeat split.
Qed.

(** ** [toAsciiHex] *)

Section ToAsciiHexFacts.

Lemma nibbles_of_byte b :
  is_u8 b -> js_sar (Num b) 4 = b / 16 /\ js_bitand (Num b) (Num 15) = b mod 16.
Proof.
  unfold is_u8. intros Hb. unfold js_sar, js_bitand.
  rewrite (ToInt32_small b) by lia. rewrite (ToInt32_small 15) by lia.
  split.
  - change (4 mod 32) with 4. rewrite Z.shiftr_div_pow2 by lia. reflexivity.
  - apply land_15.
Qed.

Lemma nibble_range b : is_u8 b -> 0 <= b / 16 < 16 /\ 0 <= b mod 16 < 16.
Proof.
  unfold is_u8. intros Hb. split.
  - split; [apply Z.div_pos; lia | apply Z.div_lt_upper_bound; lia].
  - apply Z.mod_pos_bound. lia.
Qed.

Lemma hexDigitCode_range n : 0 <= n < 16 -> 48 <= hexDigitCode n <= 102.
Proof. intros Hn. unfold hexDigitCode. destruct (Z.ltb_spec n 10); lia. Qed.

Lemma ToUint8_hexDigitCode n :
  0 <= n < 16 -> ToUint8 (hexDigitCode n) = hexDigitCode n.
Proof.
  intros Hn. pose proof (hexDigitCode_range n Hn).
  unfold ToUint8. apply Z.mod_small. lia.
Qed.

(** The code's nibble table is the lowercase hex alphabet. *)
Lemma hexDigitCode_lowercase n :
  0 <= n < 16 -> hexDigitCode n = Spec.lowercaseHexCode n.
Proof.
  intros Hn.
  revert n Hn. apply nibble_ind. intros k Hk.
  do 16 (destruct k as [|k]; [reflexivity|]). lia.
Qed.

Lemma nibbleOfCode_hexDigitCode n :
  0 <= n < 16 -> Spec.nibbleOfCode (hexDigitCode n) = Some n.
Proof.
  intros Hn. unfold Spec.nibbleOfCode, hexDigitCode.
  destruct (Z.ltb_spec n 10).
  - replace ((48 <=? 48 + n) && (48 + n <=? 57)) with true
      by (symmetry; apply andb_true_iff; split; apply Z.leb_le; lia).
    f_equal. lia.
  - replace ((48 <=? 97 + (n - 10)) && (97 + (n - 10) <=? 57)) with false
      by (symmetry; apply andb_false_iff; right; apply Z.leb_gt; lia).
    replace ((97 <=? 97 + (n - 10)) && (97 + (n - 10) <=? 102)) with true
      by (symmetry; apply andb_true_iff; split; apply Z.leb_le; lia).
    f_equal. lia.
Qed.

Lemma hexDigitCode_nibbleOfCode c n :
  Spec.nibbleOfCode c = Some n -> 0 <= n < 16 /\ hexDigitCode n = c.
Proof.
  unfold Spec.nibbleOfCode, hexDigitCode. intros H.
  destruct ((48 <=? c) && (c <=? 57)) eqn:E1.
  - apply andb_true_iff in E1 as [?%Z.leb_le ?%Z.leb_le].
    injection H as <-. destruct (Z.ltb_spec (c - 48) 10); lia.
  - destruct ((97 <=? c) && (c <=? 102)) eqn:E2; [|discriminate].
    apply andb_true_iff in E2 as [?%Z.leb_le ?%Z.leb_le].
    injection H as <-. destruct (Z.ltb_spec (c - 97 + 10) 10); lia.
Qed.

Lemma length_flat_map_hexPair d :
  length (flat_map hexPair d) = (length d * 2)%nat.
Proof. induction d as [|b d IH]; simpl; [reflexivity | rewrite IH; lia]. Qed.

Lemma toAsciiHex_body_length data result i :
  length (toAsciiHex_body data result i) = length result.
Proof.
  unfold toAsciiHex_body. destruct (data !! i); [|reflexivity].
  rewrite !length_store. reflexivity.
Qed.

Lemma toAsciiHex_length data : length (toAsciiHex data) = (2 * length data)%nat.
Proof.
  unfold toAsciiHex.
  assert (H : forall l acc,
             length (foldl (toAsciiHex_body data) acc l) = length acc).
  { induction l as [|i l IH]; intros acc; simpl; [reflexivity|].
    rewrite IH. apply toAsciiHex_body_length. }
  rewrite H, length_create. lia.
Qed.

(** One iteration fills the next two cells of the result. *)
Lemma toAsciiHex_body_step data pre b k j :
  bytes_ok data ->
  data !! k = Some b ->
  length pre = (k * 2)%nat ->
  toAsciiHex_body data (pre ++ create (2 * S j)) k
  = (pre ++ hexPair b) ++ create (2 * j).
Proof.
  intros Hok Hb Hpre. unfold toAsciiHex_body. rewrite Hb.
  assert (Hu : is_u8 b).
  { unfold bytes_ok in Hok. rewrite Forall_lookup in Hok. eapply Hok, Hb. }
  destruct (nibbles_of_byte b Hu) as [-> ->].
  destruct (nibble_range b Hu) as [Hh Hl].
  unfold store. rewrite !ToUint8_hexDigitCode by assumption.
  replace (2 * S j)%nat with (S (S (2 * j))) by lia.
  cbn [create replicate].
  rewrite (insert_app_r_alt pre) by lia.
  replace (k * 2 - length pre)%nat with 0%nat by lia.
  cbn [insert list_insert].
  rewrite (insert_app_r_alt pre) by lia.
  replace (k * 2 + 1 - length pre)%nat with 1%nat by lia.
  cbn [insert list_insert].
  unfold hexPair. rewrite <- app_assoc. reflexivity.
Qed.

Lemma toAsciiHex_loop data : bytes_ok data ->
  forall j k, (k + j = length data)%nat ->
  foldl (toAsciiHex_body data)
        (flat_map hexPair (take k data) ++ create (2 * j)) (seq k j)
  = flat_map hexPair data.
Proof.
  intros Hok. induction j as [|j IH]; intros k Hk.
  - simpl. rewrite take_ge by lia. apply app_nil_r.
  - cbn [seq foldl].
    destruct (lookup_lt_is_Some_2 data k ltac:(lia)) as [b Hb].
    rewrite (toAsciiHex_body_step data _ b k j Hok Hb)
      by (rewrite length_flat_map_hexPair, length_take; lia).
    replace (flat_map hexPair (take k data) ++ hexPair b)
      with (flat_map hexPair (take (S k) data)).
    + apply IH. lia.
    + rewrite (take_S_r data k b Hb), flat_map_app. reflexivity.
Qed.

(** On a byte array the loop computes the concatenation of the pairs. *)
Lemma toAsciiHex_closed_form data :
  bytes_ok data -> toAsciiHex data = flat_map hexPair data.
Proof.
  intros Hok. unfold toAsciiHex.
  pose proof (toAsciiHex_loop data Hok (length data) 0%nat ltac:(lia)) as H.
  rewrite take_0 in H. simpl in H.
  replace (length data * 2)%nat with (length data + (length data + 0))%nat
    by lia.
  exact H.
Qed.

Lemma fromAsciiHex_hexPairs d :
  bytes_ok d -> Spec.fromAsciiHex (flat_map hexPair d) = Some d.
Proof.
  induction 1 as [|b d Hb Hd IH]; [reflexivity|].
  destruct (nibble_range b Hb) as [Hh Hl].
  cbn [flat_map hexPair app Spec.fromAsciiHex].
  rewrite !nibbleOfCode_hexDigitCode by assumption. rewrite IH.
  f_equal. f_equal. pose proof (Z.div_mod b 16 ltac:(lia)). lia.
Qed.

(** Induction on lists two elements at a time. *)
Lemma pair_induction {A} (P : list A -> Prop) :
  P [] -> (forall a, P [a]) ->
  (forall a b l, P l -> P (a :: b :: l)) ->
  forall l, P l.
Proof.
  intros H0 H1 H2.
  assert (H : forall l, P l /\ forall a, P (a :: l)).
  { induction l as [|c l [IHa IHb]]; split; auto. }
  intros l. apply H.
Qed.

Lemma hexPairs_fromAsciiHex x : forall d,
  Spec.fromAsciiHex x = Some d -> bytes_ok d /\ flat_map hexPair d = x.
Proof.
  induction x as [| a | h l rest IH] using pair_induction; intros d H.
  - injection H as <-. split; [constructor | reflexivity].
  - discriminate.
  - cbn [Spec.fromAsciiHex] in H.
    destruct (Spec.nibbleOfCode h) as [a|] eqn:Eh; [|discriminate].
    destruct (Spec.nibbleOfCode l) as [b|] eqn:El; [|discriminate].
    destruct (Spec.fromAsciiHex rest) as [d'|] eqn:Er; [|discriminate].
    injection H as <-.
    destruct (IH d' eq_refl) as [Hok Hd'].
    destruct (hexDigitCode_nibbleOfCode _ _ Eh) as [Ha Hha].
    destruct (hexDigitCode_nibbleOfCode _ _ El) as [Hb Hlb].
    split.
    + constructor; [unfold is_u8; lia | exact Hok].
    + cbn [flat_map hexPair app].
      replace ((a * 16 + b) / 16) with a
        by (apply Z.div_unique with b; lia).
      replace ((a * 16 + b) mod 16) with b
        by (apply Z.mod_unique with a; lia).
      rewrite Hha, Hlb, Hd'. reflexivity.
Qed.

Lemma lookup_flat_map_hexPair d : forall i b,
  d !! i = Some b ->
  flat_map hexPair d !! (2 * i)%nat = Some (hexDigitCode (b / 16))
  /\ flat_map hexPair d !! (2 * i + 1)%nat = Some (hexDigitCode (b mod 16)).
Proof.
  induction d as [|c d IH]; intros i b H; [discriminate|].
  destruct i as [|i].
  - injection H as ->. split; reflexivity.
  - cbn [flat_map hexPair app].
    replace (2 * S i)%nat with (S (S (2 * i))) by lia.
    replace (S (S (2 * i)) + 1)%nat with (S (S (2 * i + 1))) by lia.
    apply (IH i b H).
Qed.

End ToAsciiHexFacts.

Example toAsciiHex_of_42 :
  toAsciiHex (encodeU64 (Num 42))
  = map code (chars "2a00000000000000").
Proof. reflexivity. Qed.

(** C3. On every byte array [d]: the output of [toAsciiHex] has length
    2 * |d|; at positions 2i and 2i+1 it holds the lowercase ASCII hex
    character codes of the high and of the low nibble of byte i;
    [toAsciiHex] is injective; the decoder of lowercase hex text recovers
    [d] from the output; and every valid hex text is the output of
    [toAsciiHex] on its decoding. *)
Theorem toAsciiHex_encodes_lowercase_hex (d : bytes) :
  bytes_ok d ->
  length (toAsciiHex d) = (2 * length d)%nat
  /\ (forall i b, d !! i = Some b ->
        toAsciiHex d !! (2 * i)%nat = Some (Spec.lowercaseHexCode (b / 16))
        /\ toAsciiHex d !! (2 * i + 1)%nat
           = Some (Spec.lowercaseHexCode (b mod 16)))
  /\ (forall d', bytes_ok d' -> toAsciiHex d = toAsciiHex d' -> d = d')
  /\ Spec.fromAsciiHex (toAsciiHex d) = Some d
  /\ (forall x, Spec.isHexText x ->
        exists d0, Spec.fromAsciiHex x = Some d0
                   /\ bytes_ok d0 /\ toAsciiHex d0 = x).
Proof.
  intros Hok. split; [apply toAsciiHex_length|].
  split; [|split; [|split]].
  - intros i b Hb. rewrite (toAsciiHex_closed_form d Hok).
    assert (Hu : is_u8 b).
    { unfold bytes_ok in Hok. rewrite Forall_lookup in Hok. eapply Hok, Hb. }
    destruct (nibble_range b Hu) as [Hh Hl].
    rewrite <- !hexDigitCode_lowercase by assumption.
    apply lookup_flat_map_hexPair. exact Hb.
  - intros d' Hok' Heq.
    rewrite (toAsciiHex_closed_form d Hok) in Heq.
    rewrite (toAsciiHex_closed_form d' Hok') in Heq.
    pose proof (fromAsciiHex_hexPairs d Hok) as H1.
    pose proof (fromAsciiHex_hexPairs d' Hok') as H2.
    rewrite Heq in H1. congruence.
  - rewrite (toAsciiHex_closed_form d Hok). apply fromAsciiHex_hexPairs. exact Hok.
  - intros x [d0 Hx]. destruct (hexPairs_fromAsciiHex x d0 Hx) as [Hok0 Hd0].
    exists d0. split; [exact Hx|]. split; [exact Hok0|].
    rewrite (toAsciiHex_closed_form d0 Hok0). exact Hd0.
Qed.

Lemma toAsciiHex_encodes_lowercase_hex_witness :
  bytes_ok [0; 171; 255]
  /\ length (toAsciiHex [0; 171; 255]) = 6%nat
  /\ Spec.fromAsciiHex (toAsciiHex [0; 171; 255]) = Some [0; 171; 255].
Proof.
  assert (Hok : bytes_ok [0; 171; 255]).
  { unfold bytes_ok, is_u8. repeat constructor; lia. }
  pose proof (toAsciiHex_encodes_lowercase_hex [0; 171; 255] Hok)
    as (Hlen & _ & _ & Hdec & _).
  split; [exact Hok|]. split; [exact Hlen | exact Hdec].
Defined.

(** ** Decimal rendering and text encoding *)

Section TextFacts.

Lemma code_digitChar d : 0 <= d < 10 -> code (digitChar d) = 48 + d.
Proof.
  intros Hd. unfold code, digitChar.
  rewrite nat_ascii_embedding by lia. lia.
Qed.

Lemma chars_string_of_list l : chars (string_of_list_ascii l) = l.
Proof. apply list_ascii_of_string_of_list_ascii. Qed.

(** Text whose code points are all below 128 is encoded one byte per
    character. *)
Lemma TextEncoder_encode_ascii l :
  Forall (fun c => code c < 128) l ->
  flat_map utf8_encode_char l = map code l.
Proof.
  induction 1 as [|c l Hc Hl IH]; [reflexivity|].
  cbn [flat_map map]. rewrite IH. unfold utf8_encode_char.
  destruct (Z.ltb_spec (code c) 128); [reflexivity | lia].
Qed.

Lemma stringToU8a_ascii l :
  Forall (fun c => code c < 128) l ->
  stringToU8a (string_of_list_ascii l) = map code l.
Proof.
  intros H. unfold stringToU8a, TextEncoder_encode.
  destruct l as [|c l]; [reflexivity|].
  change (string_of_list_ascii (c :: l))
    with (String c (string_of_list_ascii l)).
  cbv iota. unfold chars.
  change (list_ascii_of_string (String c (string_of_list_ascii l)))
    with (c :: list_ascii_of_string (string_of_list_ascii l)).
  rewrite list_ascii_of_string_of_list_ascii.
  apply TextEncoder_encode_ascii. exact H.
Qed.

Lemma decimalValue_snoc ds c :
  Spec.decimalValue (ds ++ [c]) = Spec.decimalValue ds * 10 + (c - 48).
Proof. unfold Spec.decimalValue. rewrite fold_left_app. reflexivity. Qed.

(** With enough fuel [decimalDigits] puts in front of the accumulator
    the digits of [z]: at least one, all decimal, denoting [z], and
    starting with a non-zero digit when [z] is positive. *)
Lemma decimalDigits_spec fuel : forall z acc,
  0 <= z < 2 ^ Z.of_nat (S fuel) ->
  exists ds,
    decimalDigits (S fuel) z acc = ds ++ acc
    /\ ds <> []
    /\ Forall (fun c => 48 <= code c <= 57) ds
    /\ Spec.decimalValue (map code ds) = z
    /\ (0 < z -> Spec.noLeadingZero (map code ds)).
Proof.
  induction fuel as [|fuel IH]; intros z acc Hz.
  - change (2 ^ Z.of_nat 1) with 2 in Hz.
    exists [digitChar (z mod 10)].
    assert (E : z / 10 = 0) by (apply Z.div_small; lia).
    assert (M : z mod 10 = z) by (apply Z.mod_small; lia).
    cbn [decimalDigits]. rewrite E. cbn [Z.eqb].
    split; [reflexivity|]. split; [discriminate|].
    rewrite M. split; [|split].
    + constructor; [rewrite code_digitChar; lia | constructor].
    + cbn. rewrite code_digitChar by lia. lia.
    + intros Hpos. cbn. rewrite code_digitChar by lia. lia.
  - pose proof (Z.mod_pos_bound z 10 ltac:(lia)) as Hm.
    pose proof (Z.div_mod z 10 ltac:(lia)) as Hdm.
    change (decimalDigits (S (S fuel)) z acc)
      with (let acc' := digitChar (z mod 10) :: acc in
            if z / 10 =? 0 then acc'
            else decimalDigits (S fuel) (z / 10) acc').
    cbv zeta. destruct (Z.eqb_spec (z / 10) 0) as [E|E].
    + exists [digitChar (z mod 10)].
      split; [reflexivity|]. split; [discriminate|].
      split; [|split].
      * constructor; [rewrite code_digitChar; lia | constructor].
      * cbn. rewrite code_digitChar by lia. lia.
      * intros Hpos. cbn. rewrite code_digitChar by lia. lia.
    + assert (Hq : 0 <= z / 10 < 2 ^ Z.of_nat (S fuel)).
      { split; [apply Z.div_pos; lia|].
        apply Z.div_lt_upper_bound; [lia|].
        replace (Z.of_nat (S (S fuel))) with (Z.of_nat (S fuel) + 1) in Hz
          by lia.
        rewrite Z.pow_add_r in Hz by lia. lia. }
      destruct (IH (z / 10) (digitChar (z mod 10) :: acc) Hq)
        as (ds & Heq & Hne & Hall & Hval & Hlead).
      exists (ds ++ [digitChar (z mod 10)]).
      split; [rewrite Heq, <- app_assoc; reflexivity|].
      split; [destruct ds; discriminate|].
      split; [|split].
      * apply Forall_app. split; [exact Hall|].
        constructor; [rewrite code_digitChar; lia | constructor].
      * rewrite map_app. cbn [map]. rewrite decimalValue_snoc, Hval.
        rewrite code_digitChar by lia. lia.
      * intros _. assert (Hpos : 0 < z / 10).
        { pose proof (Z.div_pos z 10 ltac:(lia) ltac:(lia)). lia. }
        specialize (Hlead Hpos). rewrite map_app.
        destruct ds as [|c ds]; [contradiction|]. exact Hlead.
Qed.

(** [n.toString()] read as bytes: the decimal digits of [n]. *)
Lemma Number_toString_digits n :
  exists digits,
    stringToU8a (Number_toString n) = digits
    /\ Forall Spec.isDigitCode digits
    /\ Spec.decimalValue digits = Z.of_nat n
    /\ (0 < n -> Spec.noLeadingZero digits)%nat.
Proof.
  unfold Number_toString. cbv zeta.
  assert (Hz : 0 <= Z.of_nat n < 2 ^ Z.of_nat (S (Z.to_nat (Z.log2 (Z.of_nat n))))).
  { split; [lia|].
    rewrite Nat2Z.inj_succ, Z2Nat.id by apply Z.log2_nonneg.
    destruct (Z.eq_dec (Z.of_nat n) 0) as [->|Hne]; [reflexivity|].
    apply Z.log2_spec. lia. }
  destruct (decimalDigits_spec _ _ [] Hz) as (ds & Heq & Hne & Hall & Hval & Hlead).
  rewrite Heq, app_nil_r.
  exists (map code ds). split; [|split; [|split]].
  - apply stringToU8a_ascii. eapply Forall_impl; [exact Hall|].
    cbn. intros. lia.
  - unfold Spec.isDigitCode. rewrite Forall_map. exact Hall.
  - exact Hval.
  - intros Hpos. apply Hlead. lia.
Qed.

End TextFacts.

(** ** [createEthereumSignableMessage] *)

Section MessageFacts.

Lemma bind_Some {A B} (a : A) (k : A -> option B) :
  (Some a ≫= k) = k a.
Proof. reflexivity. Qed.

(** Five copies at consecutive offsets into a fresh buffer of the total
    length leave the concatenation. *)
Lemma set_consecutive (h l p w e : bytes) :
  (b0 ← set (create (length h + length l + length p + length w + length e))
            h 0;
   b1 ← set b0 l (0 + length h);
   b2 ← set b1 p (0 + length h + length l);
   b3 ← set b2 w (0 + length h + length l + length p);
   b4 ← set b3 e (0 + length h + length l + length p + length w);
   Some b4)
  = Some (h ++ l ++ p ++ w ++ e).
Proof.
  rewrite !create_add, <- !app_assoc.
  change (0 + length h)%nat with (length h).
  replace (length h + length l + length p + length w)%nat
    with (length (((h ++ l) ++ p) ++ w)) by (rewrite !length_app; lia).
  replace (length h + length l + length p)%nat
    with (length ((h ++ l) ++ p)) by (rewrite !length_app; lia).
  replace (length h + length l)%nat with (length (h ++ l))
    by (rewrite length_app; lia).
  pose proof (set_region [] (create (length h))
                (create (length l) ++ create (length p) ++ create (length w)
                 ++ create (length e)) h (length_create _)) as H0.
  cbn [app length] in H0. rewrite H0. clear H0.
  rewrite bind_Some.
  rewrite (set_region h (create (length l)) _ l (length_create _)).
  rewrite bind_Some.
  rewrite (app_assoc h l).
  rewrite (set_region (h ++ l) (create (length p)) _ p (length_create _)).
  rewrite bind_Some.
  rewrite (app_assoc (h ++ l) p).
  rewrite (set_region ((h ++ l) ++ p) (create (length w)) _ w
             (length_create _)).
  rewrite bind_Some.
  rewrite (app_assoc ((h ++ l) ++ p) w).
  rewrite <- (app_nil_r (create (length e))).
  rewrite (set_region (((h ++ l) ++ p) ++ w) (create (length e)) [] e
             (length_create _)).
  rewrite bind_Some, app_nil_r, <- !app_assoc. reflexivity.
Qed.

Lemma createEthereumSignableMessage_concat what extra :
  createEthereumSignableMessage what extra
  = Some (stringToU8a headerText
          ++ stringToU8a (Number_toString
               (length (stringToU8a prefixText) + length what + length extra))
          ++ stringToU8a prefixText ++ what ++ extra).
Proof. unfold createEthereumSignableMessage. cbv zeta. apply set_consecutive. Qed.

End MessageFacts.

(** The message for the account id 42: 74 bytes, with length field 46. *)
Example message_for_42 :
  createEthereumSignableMessage (toAsciiHex (encodeU64 (Num 42))) []
  = Some (25 :: map code (chars "Ethereum Signed Message:") ++ [10]
          ++ map code (chars "46")
          ++ map code (chars "Pay RUSTs to the TEST account:")
          ++ map code (chars "2a00000000000000")).
Proof. reflexivity. Qed.

(** C4. [createEthereumSignableMessage] returns, for all [what] and
    [extra], the concatenation of the 26 preamble bytes
    ["\x19Ethereum Signed Message:\n"], a digit sequence, the 30 bytes of
    ["Pay RUSTs to the TEST account:"], [what] and [extra]. The digit
    sequence is in ASCII decimal, has no leading zero and no sign, and
    denotes payloadLength = 30 + |what| + |extra|, which counts neither
    the preamble nor the digits; the total length is
    26 + |digits| + payloadLength. *)
Theorem signable_message_layout (what extra : bytes) :
  let preamble := 25 :: map code (chars "Ethereum Signed Message:") ++ [10] in
  let prefixConstant := map code (chars "Pay RUSTs to the TEST account:") in
  let payloadLength :=
    (length prefixConstant + length what + length extra)%nat in
  exists digits message,
    createEthereumSignableMessage what extra = Some message
    /\ message = preamble ++ digits ++ prefixConstant ++ what ++ extra
    /\ Forall Spec.isDigitCode digits
    /\ Spec.noLeadingZero digits
    /\ Spec.decimalValue digits = Z.of_nat payloadLength
    /\ length preamble = 26%nat
    /\ length prefixConstant = 30%nat
    /\ length message = (26 + length digits + payloadLength)%nat.
Proof.
  intros preamble prefixConstant payloadLength.
  destruct (Number_toString_digits payloadLength)
    as (digits & Hd & Hall & Hval & Hlead).
  exists digits, (preamble ++ digits ++ prefixConstant ++ what ++ extra).
  split; [|split; [reflexivity|]].
  - rewrite createEthereumSignableMessage_concat.
    change (stringToU8a prefixText) with prefixConstant.
    change (stringToU8a headerText) with preamble.
    fold payloadLength. rewrite Hd. reflexivity.
  - split; [exact Hall|]. split.
    { apply Hlead. subst payloadLength prefixConstant. cbn. lia. }
    split; [exact Hval|]. split; [reflexivity|]. split; [reflexivity|].
    rewrite !length_app.
    change (length preamble) with 26%nat.
    subst payloadLength. lia.
Qed.

(** ** The numeric test and [parseInt] on decimal strings *)

Section NumericFacts.

(** Evaluate the codes of literal characters, then decide by arithmetic. *)
Ltac code_lia :=
  repeat match goal with
         | |- context [code (Ascii ?a ?b ?c ?d ?e ?f ?g ?h)] =>
             let v := eval vm_compute in (code (Ascii a b c d e f g h)) in
             change (code (Ascii a b c d e f g h)) with v
         end;
  lia.

Lemma takeWhile_all p l : forallb p l = true -> takeWhile p l = l.
Proof.
  induction l as [|c l IH]; [reflexivity|]. cbn [forallb takeWhile].
  intros [Hc Hl]%andb_true_iff. rewrite Hc, IH by exact Hl. reflexivity.
Qed.

Lemma skipWhile_all p l : forallb p l = true -> skipWhile p l = [].
Proof.
  induction l as [|c l IH]; [reflexivity|]. cbn [forallb skipWhile].
  intros [Hc Hl]%andb_true_iff. rewrite Hc. apply IH. exact Hl.
Qed.

Lemma skipWhile_none p q l :
  (forall c, q c = true -> p c = false) ->
  forallb q l = true -> skipWhile p l = l.
Proof.
  intros Hpq. destruct l as [|c l]; [reflexivity|]. cbn [forallb skipWhile].
  intros [Hc _]%andb_true_iff. rewrite (Hpq c Hc). reflexivity.
Qed.

Lemma forallb_rev {A} (p : A -> bool) l :
  forallb p l = true -> forallb p (rev l) = true.
Proof.
  rewrite !forallb_forall. intros H x Hx. apply H. apply in_rev. exact Hx.
Qed.

Lemma digit_code c : isDecimalDigit c = true -> 48 <= code c <= 57.
Proof.
  unfold isDecimalDigit. intros [?%Z.leb_le ?%Z.leb_le]%andb_true_iff. lia.
Qed.

Lemma code_inj_neq c (a : ascii) : code c <> code a -> Ascii.eqb c a = false.
Proof.
  intros H. destruct (Ascii.eqb_spec c a) as [->|]; [contradiction | reflexivity].
Qed.

Lemma digit_not_whitespace c :
  isDecimalDigit c = true -> isStrWhiteSpaceChar c = false.
Proof.
  intros H%digit_code. unfold isStrWhiteSpaceChar. cbv zeta.
  repeat match goal with
         | |- context [?a =? ?b] =>
             destruct (Z.eqb_spec a b); [lia|]
         end.
  reflexivity.
Qed.

Lemma digit_not_sign c : isDecimalDigit c = true -> isSign c = false.
Proof.
  intros H%digit_code. unfold isSign.
  rewrite (code_inj_neq c "+") by code_lia.
  rewrite (code_inj_neq c "-") by code_lia.
  reflexivity.
Qed.

Lemma digit_not_letter c (a : ascii) :
  isDecimalDigit c = true -> (code a < 48 \/ 57 < code a) ->
  Ascii.eqb c a = false.
Proof. intros H%digit_code Ha. apply code_inj_neq. lia. Qed.

Lemma digit_is_radix10 c : isDecimalDigit c = true -> isRadixDigit 10 c = true.
Proof.
  intros H. pose proof (digit_code c H) as Hc.
  unfold isRadixDigit, digitValue. cbv zeta.
  unfold isDecimalDigit in H. rewrite H. apply Z.ltb_lt. lia.
Qed.

Lemma trim_digits l : forallb isDecimalDigit l = true -> trim l = l.
Proof.
  intros H. unfold trim.
  rewrite (skipWhile_none _ _ l digit_not_whitespace H).
  rewrite (skipWhile_none _ _ (rev l) digit_not_whitespace (forallb_rev _ _ H)).
  apply rev_involutive.
Qed.

Lemma matchStrUnsignedDecimalLiteral_digits l :
  nonEmpty l = true -> forallb isDecimalDigit l = true ->
  matchStrUnsignedDecimalLiteral l = true.
Proof.
  intros Hne H. unfold matchStrUnsignedDecimalLiteral.
  destruct (String.eqb (string_of_list_ascii l) "Infinity"); [reflexivity|].
  rewrite (takeWhile_all _ _ H), (skipWhile_all _ _ H).
  destruct l; [discriminate | reflexivity].
Qed.

(** A string of decimal digits passes the numeric test. *)
Lemma isNaN_digits s :
  nonEmpty (chars s) = true -> forallb isDecimalDigit (chars s) = true ->
  isNaN s = false.
Proof.
  intros Hne H. unfold isNaN, isStringNumericLiteral.
  rewrite (trim_digits _ H).
  destruct (chars s) as [|c l] eqn:E; [reflexivity|].
  cbn [matchStrDecimalLiteral].
  pose proof H as Hc. cbn [forallb] in Hc.
  apply andb_true_iff in Hc as [Hc _].
  rewrite (digit_not_sign c Hc).
  rewrite (matchStrUnsignedDecimalLiteral_digits (c :: l) Hne H).
  reflexivity.
Qed.

(** [parseInt] of a string of decimal digits is the Number value of the
    integer they denote. *)
Lemma parseInt_digits s :
  nonEmpty (chars s) = true -> forallb isDecimalDigit (chars s) = true ->
  parseInt s = numberOfInteger (digitsValue 10 (chars s)).
Proof.
  intros Hne H. unfold parseInt.
  rewrite (skipWhile_none _ _ _ digit_not_whitespace H).
  destruct (chars s) as [|c l] eqn:E; [discriminate|].
  pose proof H as Hc. cbn [forallb] in Hc.
  apply andb_true_iff in Hc as [Hc Hl].
  rewrite (digit_not_sign c Hc).
  rewrite (digit_not_letter c "-" Hc) by code_lia.
  assert (Hr : (let '(R, str) :=
                  match c :: l with
                  | z :: x :: rest =>
                      if Ascii.eqb z "0" && (Ascii.eqb x "x" || Ascii.eqb x "X")
                      then (16, rest) else (10, c :: l)
                  | _ => (10, c :: l)
                  end in (R, str)) = (10, c :: l)).
  { destruct l as [|x rest]; [reflexivity|].
    cbn [forallb] in Hl. apply andb_true_iff in Hl as [Hx _].
    rewrite (digit_not_letter x "x" Hx) by code_lia.
    rewrite (digit_not_letter x "X" Hx) by code_lia.
    rewrite andb_false_r. reflexivity. }
  destruct (match c :: l with
            | z :: x :: rest =>
                if Ascii.eqb z "0" && (Ascii.eqb x "x" || Ascii.eqb x "X")
                then (16, rest) else (10, c :: l)
            | _ => (10, c :: l)
            end) as [R str].
  injection Hr as -> ->.
  assert (H10 : forallb (isRadixDigit 10) (c :: l) = true).
  { apply forallb_forall. intros x Hx. apply digit_is_radix10.
    rewrite forallb_forall in H. apply H. exact Hx. }
  rewrite (takeWhile_all _ _ H10).
  rewrite Z.mul_1_l. reflexivity.
Qed.

End NumericFacts.

Example isNaN_samples :
  map isNaN ["42"; " 42 "; "-1"; "1.5"; "1e3"; "0x1F"; EmptyString; "Infinity";
             "abc"; "12abc"; "."; "5Grwva"]%string
  = [false; false; false; false; false; false; false; false;
     true; true; true; true].
Proof. reflexivity. Qed.

Example parseInt_samples :
  map parseInt ["42"; "-1"; "1.5"; "1e3"; "0x1F"; EmptyString; "Infinity";
                "9007199254740993"; "18446744073709551615"]%string
  = [Num 42; Num (-1); Num 1; Num 1; Num 31; NaN; NaN;
     Num 9007199254740992; Num 18446744073709551616].
Proof. reflexivity. Qed.

(** C2, as the code has it. The numeric branch is taken exactly when the
    specifier converts to a number other than [NaN]; that holds for every
    string that parses fully as a non-negative integer representable in 64
    bits, whose bytes are then the [encodeU64] of that integer's Number
    value, and for other numeric literals too. The branch never throws and
    does not fall through. A specifier that converts to [NaN] takes the
    decoded public key when [decodeAddress] succeeds and its UTF-8 bytes
    otherwise. *)
Theorem numeric_branch_iff_not_NaN (C : Collaborators) (s : string) :
  (fst (resolveDestAccount C s) = NumericId <-> isNaN s = false)
  /\ (Spec.parsesAsU64 s = true ->
        resolveDestAccount C s
        = (NumericId, encodeU64 (numberOfInteger (digitsValue 10 (chars s)))))
  /\ (isNaN s = false ->
        resolveDestAccount C s = (NumericId, encodeU64 (parseInt s)))
  /\ (isNaN s = true ->
        resolveDestAccount C s
        = match decodeAddress C s with
          | Some publicKey => (ChainAddress, publicKey)
          | None => (RawText, TextEncoder_encode s)
          end).
Proof.
  unfold resolveDestAccount. split; [|split; [|split]].
  - destruct (isNaN s); cbn [negb].
    + split; [|discriminate]. destruct (decodeAddress C s); discriminate.
    + split; reflexivity.
  - unfold Spec.parsesAsU64.
    intros [[Hne Hd]%andb_true_iff _]%andb_true_iff.
    rewrite (isNaN_digits s Hne Hd). cbn [negb].
    rewrite (parseInt_digits s Hne Hd). reflexivity.
  - intros ->. reflexivity.
  - intros ->. reflexivity.
Qed.

(** C2 as stated fails: the decimal string of 2^64 is not representable in
    64 bits, yet it takes the numeric branch (and is encoded as eight zero
    bytes) instead of falling through to the address or raw-text tier. *)
Lemma numeric_branch_beyond_u64 :
  Spec.parsesAsU64 "18446744073709551616" = false
  /\ resolveDestAccount Sample.collaborators "18446744073709551616"
     = (NumericId, [0; 0; 0; 0; 0; 0; 0; 0])
  /\ ~ (forall (C : Collaborators) (s : string),
          fst (resolveDestAccount C s) = NumericId
          <-> Spec.parsesAsU64 s = true).
Proof.
  split; [reflexivity|]. split; [reflexivity|].
  intros H.
  destruct (H Sample.collaborators "18446744073709551616"%string) as [H1 _].
  specialize (H1 eq_refl). discriminate H1.
Qed.

Section DecimalSpecifierFacts.

(** Integers below 2^53 are Number values as they are. *)
Lemma numberOfInteger_exact n :
  0 <= n < 2 ^ 53 -> numberOfInteger n = Num n.
Proof.
  intros Hn. unfold numberOfInteger, roundSignificand.
  rewrite Z.abs_eq by lia.
  assert (Hb : Z.log2 n + 1 <= 53).
  { destruct (Z.eq_dec n 0) as [->|Hne]; [cbn; lia|].
    assert (Z.log2 n < 53) by (apply Z.log2_lt_pow2; lia). lia. }
  cbv zeta.
  destruct (Z.leb_spec (Z.log2 n + 1) 53) as [_|H]; [|lia].
  destruct (Z.leb_spec (2 ^ 1024) n) as [H|_].
  - assert (2 ^ 53 < 2 ^ 1024) by (apply Z.pow_lt_mono_r; lia). lia.
  - f_equal. destruct (Z.eq_dec n 0) as [->|Hne]; [reflexivity|].
    rewrite Z.sgn_pos by lia. lia.
Qed.

(** A decimal specifier below 2^32 is encoded as the little-endian eight
    bytes of its value. *)
Lemma resolveDestAccount_decimal_32bit (C : Collaborators) s :
  Spec.parsesAsU64 s = true ->
  digitsValue 10 (chars s) < 2 ^ 32 ->
  0 <= digitsValue 10 (chars s) ->
  fst (resolveDestAccount C s) = NumericId
  /\ length (snd (resolveDestAccount C s)) = 8%nat
  /\ le_value (snd (resolveDestAccount C s)) = digitsValue 10 (chars s).
Proof.
  intros Hp Hlt Hnn. unfold Spec.parsesAsU64 in Hp.
  apply andb_true_iff in Hp as [[Hne Hd]%andb_true_iff _].
  unfold resolveDestAccount.
  rewrite (isNaN_digits s Hne Hd). cbn [negb fst snd].
  rewrite (parseInt_digits s Hne Hd).
  rewrite numberOfInteger_exact
    by (assert (2 ^ 32 < 2 ^ 53) by (apply Z.pow_lt_mono_r; lia); lia).
  split; [reflexivity|]. split; [apply encodeU64_length|].
  rewrite encodeU64_le_value. apply Z.mod_small. lia.
Qed.

End DecimalSpecifierFacts.

(** ** Hex strings *)

Section HexFacts.

Lemma unhex_hexCharacter n : 0 <= n < 16 -> unhex (hexCharacter n) = Some n.
Proof.
  intros Hn.
  revert n Hn. apply nibble_ind. intros k Hk.
  do 16 (destruct k as [|k]; [reflexivity|]). lia.
Qed.

Lemma digitValue_hexCharacter n :
  0 <= n < 16 -> digitValue (hexCharacter n) = Some n.
Proof.
  intros Hn. pose proof (unhex_hexCharacter n Hn) as H. unfold unhex in H.
  destruct (digitValue (hexCharacter n)) as [v|]; [|discriminate].
  destruct (v <? 16); [exact H | discriminate].
Qed.

Lemma high_nibble v : is_u8 v -> Z.shiftr (Z.land v 240) 4 = v / 16.
Proof.
  intros Hv. rewrite Z.shiftr_land.
  change (Z.shiftr 240 4) with 15. rewrite land_15.
  rewrite Z.shiftr_div_pow2 by lia. change (2 ^ 4) with 16.
  apply Z.mod_small. apply nibble_range. exact Hv.
Qed.

Lemma decodePairs_hexlify d :
  bytes_ok d ->
  decodePairs (flat_map (fun v => [hexCharacter (Z.shiftr (Z.land v 240) 4);
                                   hexCharacter (Z.land v 15)]) d)
  = Some d.
Proof.
  induction 1 as [|b d Hb Hd IH]; [reflexivity|].
  destruct (nibble_range b Hb) as [Hh Hl].
  cbn [flat_map app decodePairs].
  rewrite (high_nibble b Hb), land_15.
  rewrite !unhex_hexCharacter by assumption. rewrite IH.
  f_equal. f_equal. pose proof (Z.div_mod b 16 ltac:(lia)). lia.
Qed.

(** [getBytes] recovers the bytes that [hexlify] rendered. *)
Lemma getBytes_hexlify d : bytes_ok d -> getBytes (hexlify d) = Some d.
Proof.
  intros Hd. unfold getBytes, hexlify. rewrite chars_string_of_list.
  cbn [chars list_ascii_of_string app]. cbn [Ascii.eqb Bool.eqb andb orb].
  apply decodePairs_hexlify. exact Hd.
Qed.

Lemma digitsValue_hexlify d : bytes_ok d -> forall acc,
  fold_left (fun a c => a * 16 + default 0 (digitValue c))
    (flat_map (fun v => [hexCharacter (Z.shiftr (Z.land v 240) 4);
                         hexCharacter (Z.land v 15)]) d) acc
  = fold_left (fun a b => a * 256 + b) d acc.
Proof.
  induction 1 as [|b d Hb Hd IH]; intros acc; [reflexivity|].
  destruct (nibble_range b Hb) as [Hh Hl].
  cbn [flat_map app fold_left].
  rewrite (high_nibble b Hb), land_15.
  rewrite !digitValue_hexCharacter by assumption. cbn [default].
  rewrite IH. cbn [fold_left]. unfold id.
  replace ((acc * 16 + b / 16) * 16 + b mod 16) with (acc * 256 + b)
    by (pose proof (Z.div_mod b 16 ltac:(lia)); lia).
  reflexivity.
Qed.

(** The bytes behind a hex string are the big-endian form of the integer
    that the string denotes. *)
Lemma be_value_hexlify d :
  bytes_ok d -> Spec.be_value d = Spec.hexStringValue (hexlify d).
Proof.
  intros Hd. unfold Spec.be_value, Spec.hexStringValue, hexlify, digitsValue.
  rewrite chars_string_of_list.
  cbn [chars list_ascii_of_string app drop].
  symmetry. apply digitsValue_hexlify. exact Hd.
Qed.

End HexFacts.

(** ** Computations *)

Section RunFacts.

Context {A B : Type}.

Lemma bind_mret (a : A) (k : A -> run B) : (mret a ≫= k) = k a.
Proof.
  unfold mbind, run_bind, mret, run_ret, bind, ret.
  destruct (k a) as [t r]. reflexivity.
Qed.

Lemma bind_throw (e : error) (k : A -> run B) :
  (throw e ≫= k) = ([], Threw e).
Proof. reflexivity. Qed.

Lemma bind_orThrow_Some (a : A) (e : error) (k : A -> run B) :
  (orThrow (Some a) e ≫= k) = k a.
Proof. apply bind_mret. Qed.

Lemma bind_orThrow_None (e : error) (k : A -> run B) :
  (orThrow None e ≫= k) = ([], Threw e).
Proof. reflexivity. Qed.

Lemma bind_call (ev : event) (k : unit -> run B) :
  (call ev ≫= k) = (ev :: trace (k tt), result (k tt)).
Proof.
  unfold mbind, run_bind, bind, call, trace, result.
  destruct (k tt) as [t r]. reflexivity.
Qed.

Lemma bind_returned (t : list event) (a : A) (k : A -> run B) :
  ((t, Returned a) ≫= k) = (t ++ trace (k a), result (k a)).
Proof.
  unfold mbind, run_bind, bind, trace, result.
  destruct (k a) as [t' r]. reflexivity.
Qed.

Lemma bind_threw (t : list event) (e : error) (k : A -> run B) :
  ((t, Threw e) ≫= k) = (t, Threw e).
Proof. reflexivity. Qed.

End RunFacts.

(** ** The signature array *)

Section SignatureFacts.

Lemma assembleSignatureBytes_cases sg :
  assembleSignatureBytes sg =
  match getBytes (sig_r sg) with
  | None => ([], Threw InvalidBytesLike)
  | Some rBytes =>
      match set (create 65) rBytes 0 with
      | None => ([], Threw RangeError)
      | Some b1 =>
          match getBytes (sig_s sg) with
          | None => ([], Threw InvalidBytesLike)
          | Some sBytes =>
              match set b1 sBytes 32 with
              | None => ([], Threw RangeError)
              | Some b2 =>
                  ([], Returned (store b2 64 (if sig_v sg =? 27 then 0 else 1)))
              end
          end
      end
  end.
Proof.
  unfold assembleSignatureBytes.
  destruct (getBytes (sig_r sg)) as [rBytes|];
    [rewrite bind_orThrow_Some | apply bind_orThrow_None].
  destruct (set (create 65) rBytes 0) as [b1|];
    [rewrite bind_orThrow_Some | apply bind_orThrow_None].
  destruct (getBytes (sig_s sg)) as [sBytes|];
    [rewrite bind_orThrow_Some | apply bind_orThrow_None].
  destruct (set b1 sBytes 32) as [b2|];
    [rewrite bind_orThrow_Some | apply bind_orThrow_None].
  reflexivity.
Qed.

Lemma set_length target source offset b :
  set target source offset = Some b -> length b = length target.
Proof.
  unfold set. destruct (_ <? _)%nat; [discriminate|].
  intros [= <-]. apply length_blit.
Qed.

(** With 32-byte [r] and [s] the array is [r ++ s ++ [recoveryId]]. *)
Lemma assembleSignatureBytes_ok sg r s :
  sig_r sg = hexlify r -> length r = 32%nat -> bytes_ok r ->
  sig_s sg = hexlify s -> length s = 32%nat -> bytes_ok s ->
  assembleSignatureBytes sg
  = ([], Returned (r ++ s ++ [if sig_v sg =? 27 then 0 else 1])).
Proof.
  intros Er Lr Or Es Ls Os. rewrite assembleSignatureBytes_cases.
  rewrite Er, (getBytes_hexlify r Or).
  pose proof (set_region [] (create 32) (create 33) r) as H1.
  rewrite length_create in H1. specialize (H1 (eq_sym Lr)).
  cbn [app length] in H1.
  change (create 32 ++ create 33) with (create 65) in H1. rewrite H1.
  rewrite Es, (getBytes_hexlify s Os).
  pose proof (set_region r (create 32) (create 1) s) as H2.
  rewrite length_create in H2. specialize (H2 (eq_sym Ls)).
  rewrite Lr in H2.
  change (create 32 ++ create 1) with (create 33) in H2. rewrite H2.
  unfold store.
  rewrite app_assoc.
  rewrite insert_app_r_alt by (rewrite length_app; lia).
  rewrite length_app, Lr, Ls. cbn [Nat.add Nat.sub create replicate].
  rewrite <- app_assoc.
  destruct (sig_v sg =? 27); reflexivity.
Qed.

(** Whenever the array is produced it has 65 bytes, the last of which is
    the normalised recovery value. *)
Lemma assembleSignatureBytes_returned sg t signatureBytes :
  assembleSignatureBytes sg = (t, Returned signatureBytes) ->
  t = []
  /\ length signatureBytes = 65%nat
  /\ signatureBytes !! 64%nat = Some (if sig_v sg =? 27 then 0 else 1).
Proof.
  intros H. rewrite assembleSignatureBytes_cases in H.
  destruct (getBytes (sig_r sg)) as [rBytes|]; [|discriminate].
  destruct (set (create 65) rBytes 0) as [b1|] eqn:E1; [|discriminate].
  destruct (getBytes (sig_s sg)) as [sBytes|]; [|discriminate].
  destruct (set b1 sBytes 32) as [b2|] eqn:E2; [|discriminate].
  injection H as <- <-.
  apply set_length in E1, E2. rewrite length_create in E1.
  split; [reflexivity|]. unfold store.
  replace (ToUint8 (if sig_v sg =? 27 then 0 else 1))
    with (if sig_v sg =? 27 then 0 else 1)
    by (destruct (sig_v sg =? 27); reflexivity).
  split.
  - rewrite length_insert. congruence.
  - apply list_lookup_insert_eq. lia.
Qed.

End SignatureFacts.

(** C6. Whenever the signature array is produced it has 65 bytes and its
    last byte is 0 or 1: 0 when the library's [v] is 27 and 1 when it is
    28. When [r] and [s] are the hex strings of 32 bytes each, as the
    library returns them, the array is those 32 bytes of [r], then those
    of [s], then the recovery byte, [r] and [s] being the big-endian
    forms of the integers that the strings denote; and it is always
    produced then. *)
Theorem signature_bytes_layout (sg : Signature) :
  (forall t signatureBytes,
     assembleSignatureBytes sg = (t, Returned signatureBytes) ->
     length signatureBytes = 65%nat
     /\ exists recoveryId,
          signatureBytes !! 64%nat = Some recoveryId
          /\ (recoveryId = 0 \/ recoveryId = 1)
          /\ (sig_v sg = 27 -> recoveryId = 0)
          /\ (sig_v sg = 28 -> recoveryId = 1)
          /\ forall r s,
               sig_r sg = hexlify r -> length r = 32%nat -> bytes_ok r ->
               sig_s sg = hexlify s -> length s = 32%nat -> bytes_ok s ->
               signatureBytes = r ++ s ++ [recoveryId]
               /\ Spec.be_value r = Spec.hexStringValue (sig_r sg)
               /\ Spec.be_value s = Spec.hexStringValue (sig_s sg))
  /\ (signature_ok sg ->
      exists signatureBytes,
        assembleSignatureBytes sg = ([], Returned signatureBytes)).
Proof.
  split.
  - intros t signatureBytes H.
    set (recoveryId := if sig_v sg =? 27 then 0 else 1).
    destruct (assembleSignatureBytes_returned sg t signatureBytes H)
      as (_ & Hlen & Hlast).
    fold recoveryId in Hlast. split; [exact Hlen|].
    exists recoveryId. split; [exact Hlast|].
    split; [subst recoveryId; destruct (sig_v sg =? 27); auto|].
    split; [intros Hv; subst recoveryId; rewrite Hv; reflexivity|].
    split; [intros Hv; subst recoveryId; rewrite Hv; reflexivity|].
    intros r s Er Lr Or Es Ls Os.
    rewrite (assembleSignatureBytes_ok sg r s Er Lr Or Es Ls Os) in H.
    injection H as _ <-. split; [reflexivity|].
    rewrite Er, Es. split; apply be_value_hexlify; assumption.
  - intros (r & s & Er & Lr & Or & Es & Ls & Os & _).
    eexists. apply (assembleSignatureBytes_ok sg r s); assumption.
Qed.

(** ** The signing pipeline *)

Section PipelineFacts.

Variable C : Collaborators.

Lemma assembleSignatureBytes_trace sg : trace (assembleSignatureBytes sg) = [].
Proof.
  rewrite assembleSignatureBytes_cases.
  repeat match goal with
         | |- context [match ?x with _ => _ end] => destruct x
         end; reflexivity.
Qed.

Lemma SigningKey_sign_cases key digest :
  SigningKey_sign C key digest =
  ([ESign key digest],
   if (length digest =? 32)%nat
   then match secp256k1_sign C key digest with
        | Some sg => Returned sg
        | None => Threw SigningFailed
        end
   else Threw InvalidDigestLength).
Proof.
  unfold SigningKey_sign. rewrite bind_call.
  destruct (length digest =? 32)%nat; [|reflexivity].
  destruct (secp256k1_sign C key digest); reflexivity.
Qed.

(** The message that a call builds and hashes. *)
Lemma message_exists substrateAddress :
  exists message,
    createEthereumSignableMessage
      (toAsciiHex (snd (resolveDestAccount C substrateAddress))) []
    = Some message.
Proof. eexists. apply createEthereumSignableMessage_concat. Qed.

(** Every way a call can go, with the collaborator calls it makes. *)
Lemma generateClaimSignature_cases connected key substrateAddress message :
  createEthereumSignableMessage
    (toAsciiHex (snd (resolveDestAccount C substrateAddress))) []
  = Some message ->
  generateClaimSignature C connected key substrateAddress =
  match Wallet_new C key with
  | None => ([EWallet key], Threw InvalidPrivateKey)
  | Some wallet =>
      let pk := privateKey wallet in
      if connected then
        match getBytes (hexlify (keccak_256 C message)) with
        | None =>
            ([EWallet key; EConnect rpcEndpoint; EKeccak256 message],
             Threw InvalidBytesLike)
        | Some digest =>
            if SigningKey_valid C pk then
              ([EWallet key; EConnect rpcEndpoint; EKeccak256 message;
                ESigningKey pk; ESign pk digest],
               if (length digest =? 32)%nat then
                 match secp256k1_sign C pk digest with
                 | None => Threw SigningFailed
                 | Some sg =>
                     match result (assembleSignatureBytes sg) with
                     | Returned signatureBytes =>
                         Returned {| signature := hexlify signatureBytes;
                                     ethereumAddress := address wallet |}
                     | Threw e => Threw e
                     | Pending => Pending
                     end
                 end
               else Threw InvalidDigestLength)
            else
              ([EWallet key; EConnect rpcEndpoint; EKeccak256 message;
                ESigningKey pk],
               Threw InvalidPrivateKey)
        end
      else ([EWallet key; EConnect rpcEndpoint], Pending)
  end.
Proof.
  intros Hm. unfold generateClaimSignature. rewrite bind_call.
  destruct (Wallet_new C key) as [wallet|]; [|reflexivity].
  rewrite bind_orThrow_Some, bind_call.
  destruct connected; [|reflexivity].
  rewrite bind_mret, Hm, bind_orThrow_Some.
  change (ethers_keccak256 C message)
    with ([EKeccak256 message], Returned (hexlify (keccak_256 C message))).
  rewrite bind_returned.
  destruct (getBytes (hexlify (keccak_256 C message))) as [digest|];
    [|reflexivity].
  rewrite bind_orThrow_Some, bind_call.
  destruct (SigningKey_valid C (privateKey wallet)); [|reflexivity].
  rewrite bind_mret, bind_orThrow_Some, SigningKey_sign_cases.
  destruct (length digest =? 32)%nat; [|reflexivity].
  destruct (secp256k1_sign C (privateKey wallet) digest) as [sg|];
    [|reflexivity].
  rewrite bind_returned.
  pose proof (assembleSignatureBytes_trace sg) as Ht.
  destruct (assembleSignatureBytes sg) as [t [b|e|]]; cbn in Ht; subst t;
    reflexivity.
Qed.

End PipelineFacts.

Section SampleFacts.

Lemma sample_digest_ok : digest_ok Sample.collaborators.
Proof.
  intros data. unfold bytes_ok. cbn [keccak_256 Sample.collaborators].
  apply Forall_replicate. unfold is_u8. apply Z.mod_pos_bound. lia.
Qed.

End SampleFacts.

(** C5. In every call in which the signing primitive is invoked, the
    collaborator calls are exactly: the wallet, the connection, one
    Keccak-256 hash of the signable message, the signing key, and the
    signing primitive on the digest that this hash returned; nothing is
    hashed a second time and nothing is put between the hash and the
    signature. Every call that returns a signature is such a call. *)
Theorem digest_is_hashed_once_and_signed
    (C : Collaborators) (connected : bool) (key substrateAddress : string) :
  digest_ok C ->
  let r := generateClaimSignature C connected key substrateAddress in
  (forall k d, In (ESign k d) (trace r) ->
     exists wallet message,
       Wallet_new C key = Some wallet
       /\ k = privateKey wallet
       /\ createEthereumSignableMessage
            (toAsciiHex (snd (resolveDestAccount C substrateAddress))) []
          = Some message
       /\ d = keccak_256 C message
       /\ trace r = [EWallet key; EConnect rpcEndpoint; EKeccak256 message;
                     ESigningKey k; ESign k d])
  /\ (forall cs, result r = Returned cs ->
        exists k d, In (ESign k d) (trace r)).
Proof.
  intros Hd r. subst r.
  destruct (message_exists C substrateAddress) as [message Hm].
  rewrite (generateClaimSignature_cases C connected key substrateAddress
             message Hm).
  rewrite (getBytes_hexlify _ (Hd message)).
  destruct (Wallet_new C key) as [wallet|]; cbv zeta.
  2:{ split; [intros k d [H|[]]; discriminate H | intros cs H; discriminate H]. }
  destruct connected.
  2:{ split; [intros k d [H|[H|[]]]; discriminate H
             | intros cs H; discriminate H]. }
  destruct (SigningKey_valid C (privateKey wallet)).
  2:{ split; [intros k d [H|[H|[H|[H|[]]]]]; discriminate H
             | intros cs H; discriminate H]. }
  split.
  - intros k d [H|[H|[H|[H|[H|[]]]]]]; try discriminate H.
    injection H as <- <-. exists wallet, message. repeat split. exact Hm.
  - intros cs _. exists (privateKey wallet), (keccak_256 C message).
    cbn [trace fst]. right. right. right. right. left. reflexivity.
Qed.

Lemma digest_is_hashed_once_and_signed_witness :
  digest_ok Sample.collaborators
  /\ exists k d,
       In (ESign k d)
          (trace (generateClaimSignature Sample.collaborators true
                    Sample.privateKeyText "42")).
Proof.
  split; [exact sample_digest_ok|].
  destruct (digest_is_hashed_once_and_signed Sample.collaborators true
              Sample.privateKeyText "42" sample_digest_ok) as [_ H].
  destruct (result (generateClaimSignature Sample.collaborators true
                      Sample.privateKeyText "42")) as [cs|e|] eqn:E.
  - exact (H cs eq_refl).
  - vm_compute in E. discriminate E.
  - vm_compute in E. discriminate E.
Defined.

(** C8. A private key that the wallet constructor rejects ends the call
    with that error before anything is hashed. When the signing primitive
    fails on the digest of the call, no value is returned, and the call,
    once its connection is established, ends with an error. A call that
    returns a value has passed the key check and the signing primitive,
    and the value is the hex string of a complete 65-byte signature
    array: there is nothing in between. *)
Theorem signing_is_all_or_nothing
    (C : Collaborators) (connected : bool) (key substrateAddress : string) :
  let r := generateClaimSignature C connected key substrateAddress in
  let what := toAsciiHex (snd (resolveDestAccount C substrateAddress)) in
  (Wallet_new C key = None ->
     result r = Threw InvalidPrivateKey
     /\ forall message, ~ In (EKeccak256 message) (trace r))
  /\ (forall wallet message digest,
        Wallet_new C key = Some wallet ->
        createEthereumSignableMessage what [] = Some message ->
        getBytes (hexlify (keccak_256 C message)) = Some digest ->
        secp256k1_sign C (privateKey wallet) digest = None ->
        (connected = true -> exists e, result r = Threw e)
        /\ (forall cs, result r <> Returned cs))
  /\ (forall cs, result r = Returned cs ->
        exists wallet message digest sg signatureBytes,
          Wallet_new C key = Some wallet
          /\ createEthereumSignableMessage what [] = Some message
          /\ getBytes (hexlify (keccak_256 C message)) = Some digest
          /\ secp256k1_sign C (privateKey wallet) digest = Some sg
          /\ assembleSignatureBytes sg = ([], Returned signatureBytes)
          /\ length signatureBytes = 65%nat
          /\ signature cs = hexlify signatureBytes
          /\ ethereumAddress cs = address wallet).
Proof.
  intros r what. subst r what.
  destruct (message_exists C substrateAddress) as [message Hm].
  rewrite (generateClaimSignature_cases C connected key substrateAddress
             message Hm).
  split; [|split].
  - intros ->. split; [reflexivity|].
    intros m [H|[]]. discriminate H.
  - intros wallet message' digest Hw Hm' Hd Hfail.
    rewrite Hm in Hm'. injection Hm' as <-.
    rewrite Hw. cbv zeta.
    destruct connected;
      [|split; [intros Hc; discriminate Hc | intros cs H; discriminate H]].
    rewrite Hd.
    destruct (SigningKey_valid C _);
      [|split; [intros _; eexists; reflexivity | intros cs H; discriminate H]].
    cbn [result snd]. rewrite Hfail.
    destruct (_ =? _)%nat;
      (split; [intros _; eexists; reflexivity | intros cs H; discriminate H]).
  - intros cs H.
    destruct (Wallet_new C key) as [wallet|]; cbv zeta in H; [|discriminate H].
    destruct connected; [|discriminate H].
    destruct (getBytes _) as [digest|] eqn:Ed; [|discriminate H].
    destruct (SigningKey_valid C _); [|discriminate H].
    cbn [result snd] in H.
    destruct (_ =? _)%nat; [|discriminate H].
    destruct (secp256k1_sign C (privateKey wallet) digest) as [sg|] eqn:Es;
      [|discriminate H].
    destruct (assembleSignatureBytes sg) as [t [b|e|]] eqn:Ea;
      cbn in H; [|discriminate H|discriminate H].
    destruct (assembleSignatureBytes_returned sg t b Ea) as (-> & Hlen & _).
    injection H as <-.
    exists wallet, message, digest, sg, b. repeat split; assumption.
Qed.

(** ** Two runs *)

Section TwoRunFacts.

Variable recover : bytes -> bytes -> option string.



End TwoRunFacts.

Section OtherNonceFacts.





End OtherNonceFacts.




Lemma signature_bytes_layout_witness :
  let sg := {| sig_r := hexlify (replicate 32 7);
               sig_s := hexlify (replicate 32 9);
               sig_v := 28 |} in
  signature_ok sg
  /\ exists signatureBytes,
       assembleSignatureBytes sg = ([], Returned signatureBytes).
Proof.
  intros sg.
  assert (Hok : signature_ok sg).
  { exists (replicate 32 7), (replicate 32 9).
    repeat split; try reflexivity;
      try (apply Forall_replicate; unfold is_u8; lia).
    right. reflexivity. }
  split; [exact Hok|].
  destruct (signature_bytes_layout sg) as [_ H]. exact (H Hok).
Defined.

(** ** [submitSignature] *)

Section SubmitFacts.

Variables (chain : option string) (destAccount : option Z).

(** An array of any length other than 65 is refused before anything is
    sent. *)
Lemma submitSignature_rejects_array b :
  length b <> 65%nat ->
  submitSignature chain destAccount (SigUint8Array b)
  = ([], Threw (InvalidSignatureLength (length b))).
Proof.
  intros Hlen. unfold submitSignature. rewrite bind_mret.
  destruct (Nat.eqb_spec (length b) 65) as [E|_]; [contradiction|].
  reflexivity.
Qed.

(** A string is refused when what [Buffer.from] decodes from it has a
    length other than 65. *)
Lemma submitSignature_rejects_string s :
  length (Buffer_from_hex (cleanSig s)) <> 65%nat ->
  submitSignature chain destAccount (SigString s)
  = ([], Threw (InvalidSignatureLength (length (Buffer_from_hex (cleanSig s))))).
Proof.
  intros Hlen. unfold submitSignature. rewrite bind_mret.
  destruct (Nat.eqb_spec (length (Buffer_from_hex (cleanSig s))) 65)
    as [E|_]; [contradiction|].
  reflexivity.
Qed.

Lemma submitSignature_rejects_other :
  submitSignature chain destAccount SigOther = ([], Threw SignatureTypeError).
Proof. reflexivity. Qed.

End SubmitFacts.

Section TruncationFacts.

Lemma Buffer_from_hex_hexPairs d : forall tail,
  bytes_ok d ->
  (length tail < 2)%nat ->
  Buffer_from_hex
    (flat_map (fun v => [hexCharacter (Z.shiftr (Z.land v 240) 4);
                         hexCharacter (Z.land v 15)]) d ++ tail)
  = d.
Proof.
  intros tail Hd Ht. induction Hd as [|b d Hb Hd IH].
  - destruct tail as [|a [|c tail]]; [reflexivity | reflexivity |].
    cbn in Ht. lia.
  - destruct (nibble_range b Hb) as [Hh Hl].
    cbn [flat_map app Buffer_from_hex].
    rewrite (high_nibble b Hb), land_15.
    rewrite !unhex_hexCharacter by assumption. rewrite IH.
    f_equal. pose proof (Z.div_mod b 16 ltac:(lia)). lia.
Qed.

Lemma chars_append s1 s2 :
  chars (s1 ++ s2)%string = chars s1 ++ chars s2.
Proof.
  unfold chars. induction s1 as [|a s1 IH]; [reflexivity|].
  cbn [String.append list_ascii_of_string app]. rewrite IH. reflexivity.
Qed.

(** Any 65 bytes rendered in hex and followed by one more character are
    accepted and sent as those 65 bytes: the extra character is dropped
    without an error. *)
Lemma submitSignature_drops_trailing_character
    (chain : option string) (n : Z) (b : bytes) (c : ascii) :
  bytes_ok b -> length b = 65%nat ->
  submitSignature chain (Some n)
    (SigString (hexlify b ++ String c EmptyString))
  = ([ESend (accountBytesOf n) b],
     match chain with
     | Some hash => Returned hash
     | None => Threw SubmissionFailed
     end).
Proof.
  intros Hb Hlen. unfold submitSignature. rewrite bind_mret.
  assert (Hc : Buffer_from_hex (cleanSig (hexlify b ++ String c EmptyString))
               = b).
  { unfold cleanSig. rewrite chars_append. unfold hexlify.
    rewrite chars_string_of_list.
    cbn [chars list_ascii_of_string app Ascii.eqb Bool.eqb andb].
    apply Buffer_from_hex_hexPairs; [exact Hb | cbn; lia]. }
  rewrite Hc, Hlen. cbn [Nat.eqb negb].
  rewrite bind_mret, bind_orThrow_Some, bind_call.
  destruct chain; reflexivity.
Qed.

End TruncationFacts.

(** C7 (the code departs from the specification). A hex string of 131 digits does
    not decode to whole bytes, yet [submitSignature] raises nothing: the
    decoding drops the last digit, the 65 bytes that remain pass the
    length check, and they are sent. *)
Theorem submitSignature_sends_truncated_hex :
  String.length Sample.oddHexSignature = 133%nat
  /\ submitSignature (Some "0xf00d"%string) (Some 42)
       (SigString Sample.oddHexSignature)
     = ([ESend (42 :: replicate 31 0) (replicate 65 17)],
        Returned "0xf00d"%string).
Proof. split; vm_compute; reflexivity. Qed.

(** * Further properties *)

(** ** Account ids: [encodeU64] and the bytes that are submitted *)

Section AccountIdFacts.

Lemma encodeU64_bytes_ok num : bytes_ok (encodeU64 num).
Proof.
  destruct num as [| | |z]; try (apply (bytes_ok_create 8)).
  rewrite encodeU64_bytes. cbv zeta. unfold bytes_ok, is_u8.
  repeat (apply Forall_cons; split;
          [first [lia | apply Z.mod_pos_bound; lia]|]).
  apply Forall_nil. trivial.
Qed.

(** The loop of [submitSignature] over the eight low bytes, unrolled. *)
Lemma accountBytesOf_bytes n :
  accountBytesOf n =
  [n mod 256; (n / 256) mod 256; (n / 256 / 256) mod 256;
   (n / 256 / 256 / 256) mod 256; (n / 256 / 256 / 256 / 256) mod 256;
   (n / 256 / 256 / 256 / 256 / 256) mod 256;
   (n / 256 / 256 / 256 / 256 / 256 / 256) mod 256;
   (n / 256 / 256 / 256 / 256 / 256 / 256 / 256) mod 256]
  ++ create 24.
Proof.
  unfold accountBytesOf. cbn [seq foldl accountBytes_body].
  unfold store, ToUint8. rewrite !land_255.
  rewrite !Z.shiftr_div_pow2 by lia. change (2 ^ 8) with 256.
  rewrite !Z.mod_mod by lia. reflexivity.
Qed.

Lemma eight_bytes_value n :
  le_value
    [n mod 256; (n / 256) mod 256; (n / 256 / 256) mod 256;
     (n / 256 / 256 / 256) mod 256; (n / 256 / 256 / 256 / 256) mod 256;
     (n / 256 / 256 / 256 / 256 / 256) mod 256;
     (n / 256 / 256 / 256 / 256 / 256 / 256) mod 256;
     (n / 256 / 256 / 256 / 256 / 256 / 256 / 256) mod 256]
  = n mod 2 ^ 64.
Proof.
  cbn [le_value].
  set (q1 := n / 256). set (q2 := q1 / 256). set (q3 := q2 / 256).
  set (q4 := q3 / 256). set (q5 := q4 / 256). set (q6 := q5 / 256).
  set (q7 := q6 / 256).
  pose proof (Z.div_mod n 256 ltac:(lia)) as E0. fold q1 in E0.
  pose proof (Z.div_mod q1 256 ltac:(lia)) as E1. fold q2 in E1.
  pose proof (Z.div_mod q2 256 ltac:(lia)) as E2. fold q3 in E2.
  pose proof (Z.div_mod q3 256 ltac:(lia)) as E3. fold q4 in E3.
  pose proof (Z.div_mod q4 256 ltac:(lia)) as E4. fold q5 in E4.
  pose proof (Z.div_mod q5 256 ltac:(lia)) as E5. fold q6 in E5.
  pose proof (Z.div_mod q6 256 ltac:(lia)) as E6. fold q7 in E6.
  pose proof (Z.div_mod q7 256 ltac:(lia)) as E7.
  pose proof (Z.mod_pos_bound n 256 ltac:(lia)).
  pose proof (Z.mod_pos_bound q1 256 ltac:(lia)).
  pose proof (Z.mod_pos_bound q2 256 ltac:(lia)).
  pose proof (Z.mod_pos_bound q3 256 ltac:(lia)).
  pose proof (Z.mod_pos_bound q4 256 ltac:(lia)).
  pose proof (Z.mod_pos_bound q5 256 ltac:(lia)).
  pose proof (Z.mod_pos_bound q6 256 ltac:(lia)).
  pose proof (Z.mod_pos_bound q7 256 ltac:(lia)).
  change (2 ^ 64) with 18446744073709551616.
  apply Z.mod_unique with (q := q7 / 256); lia.
Qed.

Lemma le_value_zeros k : le_value (create k) = 0.
Proof.
  unfold create. induction k as [|k IH]; [reflexivity|].
  change (replicate (S k) 0) with (0 :: replicate k 0).
  cbn [le_value]. rewrite IH. reflexivity.
Qed.

Lemma le_value_app a b :
  le_value (a ++ b) = le_value a + 256 ^ Z.of_nat (length a) * le_value b.
Proof.
  induction a as [|x a IH]; cbn [app le_value length].
  - change (256 ^ Z.of_nat 0) with 1. lia.
  - rewrite IH, Nat2Z.inj_succ, Z.pow_succ_r by lia. lia.
Qed.

End AccountIdFacts.

(** X1. For an integer [n] below 2^32 [encodeU64] returns eight bytes,
    each in [0, 256), that are the little-endian encoding of [n]: byte i
    is (n / 256^i) mod 256, the four high bytes are zero and the bytes
    read back as [n]. *)
Theorem encodeU64_little_endian_below_2p32 (n : Z) :
  0 <= n < 2 ^ 32 ->
  length (encodeU64 (Num n)) = 8%nat
  /\ bytes_ok (encodeU64 (Num n))
  /\ le_value (encodeU64 (Num n)) = n
  /\ drop 4 (encodeU64 (Num n)) = [0; 0; 0; 0]
  /\ (forall i b, encodeU64 (Num n) !! i = Some b ->
        b = (n / 256 ^ Z.of_nat i) mod 256).
Proof.
  intros Hn. split; [apply encodeU64_length|].
  split; [apply encodeU64_bytes_ok|].
  split; [rewrite encodeU64_le_value; apply Z.mod_small; exact Hn|].
  rewrite encodeU64_bytes. cbv zeta. rewrite (Z.mod_small n) by exact Hn.
  split; [reflexivity|].
  intros i b Hi.
  assert (Hhigh : forall k, 4 <= k -> (n / 256 ^ k) mod 256 = 0).
  { intros k Hk. rewrite Z.div_small; [reflexivity|]. split; [lia|].
    assert (2 ^ 32 <= 256 ^ k).
    { change 256 with (2 ^ 8). rewrite <- Z.pow_mul_r by lia.
      apply Z.pow_le_mono_r; lia. }
    lia. }
  do 8 (destruct i as [|i];
        [injection Hi as <-;
         first [reflexivity
               | rewrite Hhigh by lia; reflexivity
               | rewrite Z.div_1_r; reflexivity ]|]).
  discriminate Hi.
Qed.

Lemma encodeU64_little_endian_below_2p32_witness :
  0 <= 305419896 < 2 ^ 32
  /\ le_value (encodeU64 (Num 305419896)) = 305419896.
Proof.
  assert (H : 0 <= 305419896 < 2 ^ 32) by lia.
  split; [exact H|].
  exact (proj1 (proj2 (proj2
           (encodeU64_little_endian_below_2p32 305419896 H)))).
Defined.

Section SpecifierFacts.

Lemma digitValue_nonneg c : 0 <= default 0 (digitValue c).
Proof.
  unfold digitValue. cbv zeta.
  destruct ((48 <=? code c) && (code c <=? 57)) eqn:E1.
  { apply andb_true_iff in E1 as [?%Z.leb_le _]. cbn. unfold id. lia. }
  destruct ((97 <=? code c) && (code c <=? 122)) eqn:E2.
  { apply andb_true_iff in E2 as [?%Z.leb_le _]. cbn. unfold id. lia. }
  destruct ((65 <=? code c) && (code c <=? 90)) eqn:E3.
  { apply andb_true_iff in E3 as [?%Z.leb_le _]. cbn. unfold id. lia. }
  cbn. lia.
Qed.

Lemma digitsValue_nonneg R l : 0 <= R -> 0 <= digitsValue R l.
Proof.
  intros HR. unfold digitsValue.
  assert (H : forall acc, 0 <= acc ->
            0 <= fold_left (fun a c => a * R + default 0 (digitValue c)) l acc).
  { induction l as [|c l IH]; intros acc Hacc; cbn [fold_left]; [exact Hacc|].
    apply IH. pose proof (digitValue_nonneg c). nia. }
  apply H. lia.
Qed.

Lemma trim_blank l : forallb isStrWhiteSpaceChar l = true -> trim l = [].
Proof.
  intros H. unfold trim. rewrite (skipWhile_all _ _ H). reflexivity.
Qed.

End SpecifierFacts.

(** X2. A specifier made of decimal digits whose value is below 2^32
    takes the numeric branch and its account bytes are the eight-byte
    little-endian encoding of that value. *)
Theorem decimal_specifier_below_2p32 (C : Collaborators) (s : string) :
  nonEmpty (chars s) = true ->
  forallb isDecimalDigit (chars s) = true ->
  digitsValue 10 (chars s) < 2 ^ 32 ->
  fst (resolveDestAccount C s) = NumericId
  /\ length (snd (resolveDestAccount C s)) = 8%nat
  /\ bytes_ok (snd (resolveDestAccount C s))
  /\ le_value (snd (resolveDestAccount C s)) = digitsValue 10 (chars s).
Proof.
  intros Hne Hd Hlt.
  pose proof (digitsValue_nonneg 10 (chars s) ltac:(lia)) as Hnn.
  unfold resolveDestAccount.
  rewrite (isNaN_digits s Hne Hd). cbn [negb fst snd].
  rewrite (parseInt_digits s Hne Hd).
  rewrite numberOfInteger_exact
    by (assert (2 ^ 32 < 2 ^ 53) by (apply Z.pow_lt_mono_r; lia); lia).
  split; [reflexivity|]. split; [apply encodeU64_length|].
  split; [apply encodeU64_bytes_ok|].
  rewrite encodeU64_le_value. apply Z.mod_small. lia.
Qed.

Lemma decimal_specifier_below_2p32_witness :
  le_value (snd (resolveDestAccount Sample.collaborators "0000123456"))
  = 123456.
Proof.
  exact (proj2 (proj2 (proj2
    (decimal_specifier_below_2p32 Sample.collaborators "0000123456"
       eq_refl eq_refl eq_refl)))).
Defined.

(** X3. A specifier that consists of white space only (the empty string
    included) passes the numeric test, has no integer to parse, and is
    given the eight zero bytes of the account id 0; so is every
    specifier that passes the numeric test while [parseInt] yields
    [NaN]. *)
Theorem blank_specifier_is_account_zero (C : Collaborators) (s : string) :
  (forallb isStrWhiteSpaceChar (chars s) = true ->
     isNaN s = false /\ parseInt s = NaN)
  /\ (isNaN s = false -> parseInt s = NaN ->
        resolveDestAccount C s = (NumericId, [0; 0; 0; 0; 0; 0; 0; 0])
        /\ resolveDestAccount C s = resolveDestAccount C "0").
Proof.
  split.
  - intros H. split.
    + unfold isNaN, isStringNumericLiteral. rewrite (trim_blank _ H).
      reflexivity.
    + unfold parseInt. rewrite (skipWhile_all _ _ H). reflexivity.
  - intros HN HP. unfold resolveDestAccount at 1 2. rewrite HN, HP.
    split; reflexivity.
Qed.

Lemma blank_specifier_is_account_zero_witness :
  resolveDestAccount Sample.collaborators "   "
  = (NumericId, [0; 0; 0; 0; 0; 0; 0; 0])
  /\ resolveDestAccount Sample.collaborators "Infinity"
     = (NumericId, [0; 0; 0; 0; 0; 0; 0; 0]).
Proof.
  split.
  - destruct (blank_specifier_is_account_zero Sample.collaborators "   ")
      as [H1 H2].
    destruct (H1 eq_refl) as [HN HP]. exact (proj1 (H2 HN HP)).
  - destruct (blank_specifier_is_account_zero Sample.collaborators "Infinity")
      as [_ H2].
    exact (proj1 (H2 eq_refl eq_refl)).
Defined.

(** X4. The account bytes that [submitSignature] builds from the id [n]
    are 32 bytes, each in [0, 256): the first eight are the little-endian
    encoding of [n] modulo 2^64 (a negative or too large id wraps) and
    the other 24 are zero. *)
Theorem accountBytes_are_u64_little_endian (n : Z) :
  length (accountBytesOf n) = 32%nat
  /\ bytes_ok (accountBytesOf n)
  /\ le_value (take 8 (accountBytesOf n)) = n mod 2 ^ 64
  /\ drop 8 (accountBytesOf n) = create 24
  /\ le_value (accountBytesOf n) = n mod 2 ^ 64.
Proof.
  rewrite accountBytesOf_bytes.
  split; [reflexivity|]. split.
  { apply bytes_ok_app; [|apply bytes_ok_create].
    unfold bytes_ok, is_u8.
    repeat (apply Forall_cons; split; [apply Z.mod_pos_bound; lia|]).
    apply Forall_nil. trivial. }
  split; [cbn [take app]; apply eight_bytes_value|].
  split; [reflexivity|].
  rewrite le_value_app, eight_bytes_value, le_value_zeros. lia.
Qed.

(** X5. For an account id below 2^64 the eight bytes that are signed
    ([encodeU64]) are the first eight bytes that are submitted exactly
    when the id is below 2^32; from 2^32 on the two differ. *)
Theorem signed_and_submitted_account_agree (n : Z) :
  0 <= n < 2 ^ 64 ->
  (take 8 (accountBytesOf n) = encodeU64 (Num n) <-> n < 2 ^ 32).
Proof.
  intros Hn.
  destruct (accountBytes_are_u64_little_endian n) as (_ & _ & Hv & _).
  rewrite (Z.mod_small n (2 ^ 64)) in Hv by exact Hn.
  split.
  - intros Heq. rewrite Heq, encodeU64_le_value in Hv.
    pose proof (Z.mod_pos_bound n (2 ^ 32) ltac:(lia)). lia.
  - intros Hlt. rewrite accountBytesOf_bytes, encodeU64_bytes. cbv zeta.
    rewrite (Z.mod_small n (2 ^ 32)) by lia. cbn [take app].
    change (2 ^ 8) with 256. change (2 ^ 16) with (256 * 256).
    change (2 ^ 24) with (256 * 256 * 256).
    rewrite <- !Z.div_div by lia.
    assert (H4 : n / 256 / 256 / 256 / 256 = 0).
    { rewrite !Z.div_div by lia. apply Z.div_small.
      change (2 ^ 32) with 4294967296 in Hlt. lia. }
    rewrite H4. reflexivity.
Qed.

Lemma signed_and_submitted_account_agree_witness :
  take 8 (accountBytesOf 42) = encodeU64 (Num 42)
  /\ take 8 (accountBytesOf (2 ^ 40)) <> encodeU64 (Num (2 ^ 40)).
Proof.
  split.
  - apply (signed_and_submitted_account_agree 42); lia.
  - intros H.
    apply (signed_and_submitted_account_agree (2 ^ 40)) in H; lia.
Defined.

(** ** The hex text and the signable message *)

Section MessageMoreFacts.

Lemma hexPairs_bytes_ok d :
  bytes_ok d ->
  Forall (fun c => 48 <= c <= 57 \/ 97 <= c <= 102) (flat_map hexPair d).
Proof.
  induction 1 as [|b d Hb Hd IH]; [constructor|].
  destruct (nibble_range b Hb) as [Hh Hl].
  assert (Hc : forall n, 0 <= n < 16 ->
                48 <= hexDigitCode n <= 57 \/ 97 <= hexDigitCode n <= 102).
  { intros n Hn. unfold hexDigitCode. destruct (Z.ltb_spec n 10); lia. }
  cbn [flat_map hexPair app].
  constructor; [apply Hc; exact Hh|]. constructor; [apply Hc; exact Hl|].
  exact IH.
Qed.

(** Bounds of the number that a digit sequence denotes, from an
    accumulator on. *)
Lemma decimal_fold_bounds ds : forall acc,
  Forall Spec.isDigitCode ds -> 0 <= acc ->
  acc * 10 ^ Z.of_nat (length ds)
  <= fold_left (fun a c => a * 10 + (c - 48)) ds acc
  < (acc + 1) * 10 ^ Z.of_nat (length ds).
Proof.
  induction ds as [|c ds IH]; intros acc Hall Hacc.
  - cbn. lia.
  - apply Forall_cons in Hall as [Hc Hall]. unfold Spec.isDigitCode in Hc.
    cbn [fold_left length]. rewrite Nat2Z.inj_succ, Z.pow_succ_r by lia.
    specialize (IH (acc * 10 + (c - 48)) Hall ltac:(lia)).
    assert (0 < 10 ^ Z.of_nat (length ds)) by (apply Z.pow_pos_nonneg; lia).
    nia.
Qed.

(** A digit sequence without leading zero of length k denotes a number
    from 10^(k-1) up to, not including, 10^k. *)
Lemma decimalValue_bounds ds :
  Forall Spec.isDigitCode ds -> Spec.noLeadingZero ds ->
  10 ^ (Z.of_nat (length ds) - 1) <= Spec.decimalValue ds
  < 10 ^ Z.of_nat (length ds).
Proof.
  intros Hall Hlead. destruct ds as [|c ds]; [contradiction|].
  apply Forall_cons in Hall as [Hc Hall]. unfold Spec.isDigitCode in Hc.
  cbn in Hlead. unfold Spec.decimalValue. cbn [fold_left length].
  rewrite Nat2Z.inj_succ.
  replace (Z.succ (Z.of_nat (length ds)) - 1) with (Z.of_nat (length ds))
    by lia.
  rewrite Z.pow_succ_r by lia.
  pose proof (decimal_fold_bounds ds (0 * 10 + (c - 48)) Hall ltac:(lia)).
  assert (0 < 10 ^ Z.of_nat (length ds)) by (apply Z.pow_pos_nonneg; lia).
  nia.
Qed.

(** A larger length has at least as many digits. *)
Lemma Number_toString_length_mono n m :
  (0 < n <= m)%nat ->
  (length (stringToU8a (Number_toString n))
   <= length (stringToU8a (Number_toString m)))%nat.
Proof.
  intros Hnm.
  destruct (Number_toString_digits n) as (dn & -> & Hn1 & Hn2 & Hn3).
  destruct (Number_toString_digits m) as (dm & -> & Hm1 & Hm2 & Hm3).
  pose proof (decimalValue_bounds dn Hn1 (Hn3 ltac:(lia))) as Bn.
  pose proof (decimalValue_bounds dm Hm1 (Hm3 ltac:(lia))) as Bm.
  destruct (Nat.le_gt_cases (length dn) (length dm)) as [H|H]; [exact H|].
  exfalso.
  assert (10 ^ Z.of_nat (length dm) <= 10 ^ (Z.of_nat (length dn) - 1))
    by (apply Z.pow_le_mono_r; lia).
  lia.
Qed.

End MessageMoreFacts.

(** X6. On byte arrays [toAsciiHex] distributes over concatenation, maps
    the empty array to the empty array, and its output consists of the
    character codes of ['0'..'9'] and ['a'..'f'] only. *)
Theorem toAsciiHex_concatenation (a b : bytes) :
  bytes_ok a -> bytes_ok b ->
  toAsciiHex (a ++ b) = toAsciiHex a ++ toAsciiHex b
  /\ toAsciiHex [] = []
  /\ Forall (fun c => 48 <= c <= 57 \/ 97 <= c <= 102) (toAsciiHex (a ++ b)).
Proof.
  intros Ha Hb. pose proof (bytes_ok_app a b Ha Hb) as Hab.
  rewrite (toAsciiHex_closed_form _ Hab), (toAsciiHex_closed_form _ Ha),
    (toAsciiHex_closed_form _ Hb).
  split; [apply flat_map_app|]. split; [reflexivity|].
  apply hexPairs_bytes_ok. exact Hab.
Qed.

Lemma toAsciiHex_concatenation_witness :
  toAsciiHex ([1; 2] ++ [254]) = toAsciiHex [1; 2] ++ toAsciiHex [254].
Proof.
  apply (toAsciiHex_concatenation [1; 2] [254]);
    unfold bytes_ok, is_u8; repeat constructor; lia.
Defined.

(** X7. The length field of the message that is signed counts the
    hex-expanded account: for account bytes [d] it denotes
    30 + 2 * |d|, and the message has 56 + |digits| + 2 * |d| bytes. For
    the eight bytes of a numeric id the field is "46" and the message has
    74 bytes; for a 32-byte public key the field is "94" and the message
    has 122 bytes. *)
Theorem length_field_counts_hex_text (d : bytes) :
  exists digits message,
    createEthereumSignableMessage (toAsciiHex d) [] = Some message
    /\ message = stringToU8a headerText ++ digits
                 ++ stringToU8a prefixText ++ toAsciiHex d
    /\ Spec.decimalValue digits = 30 + 2 * Z.of_nat (length d)
    /\ length message = (56 + length digits + 2 * length d)%nat
    /\ (length d = 8%nat ->
          digits = map code (chars "46") /\ length message = 74%nat)
    /\ (length d = 32%nat ->
          digits = map code (chars "94") /\ length message = 122%nat).
Proof.
  pose proof (toAsciiHex_length d) as Hlen.
  assert (Hn : (length (stringToU8a prefixText) + length (toAsciiHex d)
                + length (@nil Z))%nat = (30 + 2 * length d)%nat).
  { rewrite Hlen. change (length (stringToU8a prefixText)) with 30%nat.
    cbn [length]. lia. }
  destruct (Number_toString_digits (30 + 2 * length d))
    as (digits & Hd & _ & Hval & _).
  exists digits,
    (stringToU8a headerText ++ digits ++ stringToU8a prefixText
     ++ toAsciiHex d).
  split.
  { rewrite createEthereumSignableMessage_concat, Hn, Hd, app_nil_r.
    reflexivity. }
  split; [reflexivity|].
  split; [rewrite Hval; lia|].
  assert (Hm : length (stringToU8a headerText ++ digits
                       ++ stringToU8a prefixText ++ toAsciiHex d)
               = (56 + length digits + 2 * length d)%nat).
  { rewrite !length_app, Hlen.
    change (length (stringToU8a headerText)) with 26%nat.
    change (length (stringToU8a prefixText)) with 30%nat. lia. }
  split; [exact Hm|].
  split; intros Hk; rewrite Hm, Hk; rewrite Hk in Hd; rewrite <- Hd;
    split; vm_compute; reflexivity.
Qed.

(** X8. Two calls of [createEthereumSignableMessage] yield the same
    message exactly when [what ++ extra] is the same in both: the
    message determines the payload, and it does not record where [what]
    ends and [extra] begins. *)
Theorem signable_message_determines_payload (w1 e1 w2 e2 : bytes) :
  createEthereumSignableMessage w1 e1 = createEthereumSignableMessage w2 e2
  <-> w1 ++ e1 = w2 ++ e2.
Proof.
  rewrite !createEthereumSignableMessage_concat.
  assert (HP : length (stringToU8a prefixText) = 30%nat)
    by (vm_compute; reflexivity).
  revert HP. generalize (stringToU8a prefixText) as P.
  generalize (stringToU8a headerText) as H. intros H P HP.
  assert (Hdigits : (length w1 + length e1 = length w2 + length e2)%nat ->
            stringToU8a (Number_toString (length P + length w1 + length e1))
            = stringToU8a (Number_toString (length P + length w2 + length e2))).
  { intros E. do 2 f_equal. lia. }
  split.
  - intros [= Heq]. apply app_inv_head in Heq.
    assert (Hsame : (length w1 + length e1 = length w2 + length e2)%nat).
    { apply (f_equal (@length Z)) in Heq. rewrite !length_app in Heq.
      destruct (Nat.lt_trichotomy (length w1 + length e1)
                                  (length w2 + length e2)) as [Hlt|[E|Hgt]];
        [|exact E|].
      - pose proof (Number_toString_length_mono
                      (length P + length w1 + length e1)
                      (length P + length w2 + length e2) ltac:(lia)). lia.
      - pose proof (Number_toString_length_mono
                      (length P + length w2 + length e2)
                      (length P + length w1 + length e1) ltac:(lia)). lia. }
    rewrite (Hdigits Hsame) in Heq.
    apply app_inv_head in Heq. apply app_inv_head in Heq. exact Heq.
  - intros Heq.
    assert (Hsame : (length w1 + length e1 = length w2 + length e2)%nat).
    { apply (f_equal (@length Z)) in Heq. rewrite !length_app in Heq.
      exact Heq. }
    rewrite (Hdigits Hsame), Heq. reflexivity.
Qed.

(** ** From signing to submission *)

Section HandOverFacts.

Lemma unhex_range c v : unhex c = Some v -> 0 <= v < 16.
Proof.
  unfold unhex. pose proof (digitValue_nonneg c) as Hnn.
  destruct (digitValue c) as [w|]; [|discriminate].
  destruct (Z.ltb_spec w 16); [|discriminate].
  intros [= <-]. cbn in Hnn. unfold id in Hnn. lia.
Qed.

Lemma decodePairs_bytes_ok l : forall d, decodePairs l = Some d -> bytes_ok d.
Proof.
  induction l as [| a | a b rest IH] using pair_induction; intros d H.
  - injection H as <-. constructor.
  - discriminate.
  - cbn [decodePairs] in H.
    destruct (unhex a) as [x|] eqn:Ea; [|discriminate].
    destruct (unhex b) as [y|] eqn:Eb; [|discriminate].
    destruct (decodePairs rest) as [d'|]; [|discriminate].
    injection H as <-.
    pose proof (unhex_range _ _ Ea). pose proof (unhex_range _ _ Eb).
    constructor; [unfold is_u8; lia | apply IH; reflexivity].
Qed.

(** What [getBytes] returns is a byte array. *)
Lemma getBytes_bytes_ok s d : getBytes s = Some d -> bytes_ok d.
Proof.
  unfold getBytes. destruct (chars s) as [|z [|x digits]]; try discriminate.
  destruct (_ && _); [apply decodePairs_bytes_ok | discriminate].
Qed.

Lemma blit_bytes_ok source : forall offset target,
  bytes_ok source -> bytes_ok target -> bytes_ok (blit source offset target).
Proof.
  induction source as [|b rest IH]; intros offset target Hs Ht; [exact Ht|].
  apply Forall_cons in Hs as [Hb Hs]. cbn [blit].
  apply IH; [exact Hs|]. apply Forall_insert; assumption.
Qed.

Lemma set_bytes_ok target source offset b :
  bytes_ok source -> bytes_ok target ->
  set target source offset = Some b -> bytes_ok b.
Proof.
  unfold set. intros Hs Ht. destruct (_ <? _)%nat; [discriminate|].
  intros [= <-]. apply blit_bytes_ok; assumption.
Qed.

Lemma store_bytes_ok a i v : bytes_ok a -> bytes_ok (store a i v).
Proof.
  intros Ha. unfold store. apply Forall_insert; [exact Ha|].
  unfold is_u8, ToUint8. apply Z.mod_pos_bound. lia.
Qed.

Lemma assembleSignatureBytes_bytes_ok sg t b :
  assembleSignatureBytes sg = (t, Returned b) -> bytes_ok b.
Proof.
  intros H. rewrite assembleSignatureBytes_cases in H.
  destruct (getBytes (sig_r sg)) as [rBytes|] eqn:Er; [|discriminate].
  destruct (set (create 65) rBytes 0) as [b1|] eqn:E1; [|discriminate].
  destruct (getBytes (sig_s sg)) as [sBytes|] eqn:Es; [|discriminate].
  destruct (set b1 sBytes 32) as [b2|] eqn:E2; [|discriminate].
  injection H as _ <-. apply store_bytes_ok.
  eapply set_bytes_ok; [eapply getBytes_bytes_ok, Es | | exact E2].
  eapply set_bytes_ok; [eapply getBytes_bytes_ok, Er | | exact E1].
  apply bytes_ok_create.
Qed.

(** A call that returns has returned the hex string of the 65 bytes that
    it assembled. *)
Lemma generateClaimSignature_returned C connected key s cs :
  result (generateClaimSignature C connected key s) = Returned cs ->
  exists b, length b = 65%nat /\ bytes_ok b /\ signature cs = hexlify b.
Proof.
  destruct (message_exists C s) as [message Hm].
  rewrite (generateClaimSignature_cases C connected key s message Hm).
  intros H.
  destruct (Wallet_new C key) as [wallet|]; cbv zeta in H; [|discriminate H].
  destruct connected; [|discriminate H].
  destruct (getBytes _) as [digest|]; [|discriminate H].
  destruct (SigningKey_valid C _); [|discriminate H].
  cbn [result snd] in H.
  destruct (_ =? _)%nat; [|discriminate H].
  destruct (secp256k1_sign C (privateKey wallet) digest) as [sg|];
    [|discriminate H].
  destruct (assembleSignatureBytes sg) as [t [b|e|]] eqn:Ea;
    cbn in H; [|discriminate H|discriminate H].
  injection H as <-. exists b.
  destruct (assembleSignatureBytes_returned sg t b Ea) as (_ & Hlen & _).
  split; [exact Hlen|]. split; [|reflexivity].
  eapply assembleSignatureBytes_bytes_ok, Ea.
Qed.

Lemma length_string_of_list l :
  String.length (string_of_list_ascii l) = length l.
Proof. induction l as [|c l IH]; cbn; [reflexivity | rewrite IH; reflexivity]. Qed.

Lemma hexlify_length d : String.length (hexlify d) = (2 + 2 * length d)%nat.
Proof.
  unfold hexlify. rewrite length_string_of_list, length_app.
  assert (H : forall l : list Z,
            length (flat_map (fun v => [hexCharacter (Z.shiftr (Z.land v 240) 4);
                                        hexCharacter (Z.land v 15)]) l)
            = (2 * length l)%nat).
  { induction l as [|v l IH]; cbn [flat_map app length]; [reflexivity|].
    rewrite IH. lia. }
  rewrite H. reflexivity.
Qed.

Lemma cleanSig_hexlify d :
  cleanSig (hexlify d)
  = flat_map (fun v => [hexCharacter (Z.shiftr (Z.land v 240) 4);
                        hexCharacter (Z.land v 15)]) d.
Proof.
  unfold cleanSig, hexlify. rewrite chars_string_of_list. reflexivity.
Qed.

End HandOverFacts.

(** X9. The signature string that [generateClaimSignature] returns is
    ["0x"] and 130 hex digits, 132 characters in all, and
    [submitSignature] accepts it: it decodes to the same 65 bytes that
    were assembled, which pass the length check and are sent together
    with the account bytes. *)
Theorem generated_signature_is_submitted
    (C : Collaborators) (connected : bool) (key s : string)
    (cs : ClaimSignature) (chain : option string) (n : Z) :
  result (generateClaimSignature C connected key s) = Returned cs ->
  exists b,
    length b = 65%nat /\ bytes_ok b
    /\ signature cs = hexlify b
    /\ String.length (signature cs) = 132%nat
    /\ getBytes (signature cs) = Some b
    /\ submitSignature chain (Some n) (SigString (signature cs))
       = ([ESend (accountBytesOf n) b],
          match chain with
          | Some hash => Returned hash
          | None => Threw SubmissionFailed
          end).
Proof.
  intros H.
  destruct (generateClaimSignature_returned C connected key s cs H)
    as (b & Hlen & Hok & Hsig).
  exists b. split; [exact Hlen|]. split; [exact Hok|].
  split; [exact Hsig|]. rewrite Hsig.
  split; [rewrite hexlify_length, Hlen; reflexivity|].
  split; [apply getBytes_hexlify; exact Hok|].
  unfold submitSignature. rewrite bind_mret, cleanSig_hexlify.
  pose proof (Buffer_from_hex_hexPairs b [] Hok ltac:(cbn; lia)) as Hb.
  rewrite app_nil_r in Hb. rewrite Hb, Hlen. cbn [Nat.eqb negb].
  rewrite bind_mret, bind_orThrow_Some, bind_call.
  destruct chain; reflexivity.
Qed.

Lemma generated_signature_is_submitted_witness :
  exists cs b,
    result (generateClaimSignature Sample.collaborators true
              Sample.privateKeyText "42") = Returned cs
    /\ submitSignature None (Some 42) (SigString (signature cs))
       = ([ESend (accountBytesOf 42) b], Threw SubmissionFailed).
Proof.
  destruct (result (generateClaimSignature Sample.collaborators true
                      Sample.privateKeyText "42")) as [cs|e|] eqn:E.
  - destruct (generated_signature_is_submitted Sample.collaborators true
                Sample.privateKeyText "42" cs None 42 E)
      as (b & _ & _ & _ & _ & _ & Hs).
    exists cs, b. split; [reflexivity | exact Hs].
  - vm_compute in E. discriminate E.
  - vm_compute in E. discriminate E.
Defined.

(** X10. [submitSignature] sends at most once, and only a signature of
    exactly 65 bytes: the bytes of the array it was given, or what
    [Buffer.from] decoded from the string, together with the account
    bytes of an id that [BigInt] accepted. After a type error, a length
    error or a [BigInt] error nothing has been sent. *)
Theorem submitSignature_sends_only_65_bytes
    (chain : option string) (destAccount : option Z) (sig : signatureArg) :
  let r := submitSignature chain destAccount sig in
  (forall a b, In (ESend a b) (trace r) ->
     length b = 65%nat
     /\ trace r = [ESend a b]
     /\ (exists n, destAccount = Some n /\ a = accountBytesOf n)
     /\ match sig with
        | SigString s => b = Buffer_from_hex (cleanSig s)
        | SigUint8Array b' => b = b'
        | SigOther => False
        end)
  /\ (forall e, result r = Threw e -> e <> SubmissionFailed -> trace r = []).
Proof.
  intros r. subst r. unfold submitSignature.
  set (decoded := match sig with
                  | SigString s => Some (Buffer_from_hex (cleanSig s))
                  | SigUint8Array b => Some b
                  | SigOther => None
                  end).
  assert (Hd : match sig with
               | SigString s => mret (Buffer_from_hex (cleanSig s))
               | SigUint8Array b => mret b
               | SigOther => throw SignatureTypeError
               end = orThrow decoded SignatureTypeError)
    by (subst decoded; destruct sig; reflexivity).
  rewrite Hd.
  assert (Hsig : forall b, decoded = Some b ->
                 match sig with
                 | SigString s => b = Buffer_from_hex (cleanSig s)
                 | SigUint8Array b' => b = b'
                 | SigOther => False
                 end)
    by (subst decoded; intros b; destruct sig; intros [= <-]; reflexivity).
  clearbody decoded. clear Hd.
  destruct decoded as [b0|].
  2:{ split; [intros a b []|intros e _ _; reflexivity]. }
  rewrite bind_orThrow_Some.
  destruct (Nat.eqb_spec (length b0) 65) as [Hlen|Hlen]; cbn [negb].
  2:{ split; [intros a b []|intros e _ _; reflexivity]. }
  rewrite bind_mret.
  destruct destAccount as [n|].
  2:{ split; [intros a b []|intros e _ _; reflexivity]. }
  rewrite bind_orThrow_Some, bind_call.
  destruct chain as [hash|]; cbn [trace result fst snd orThrow ret throw].
  - split.
    + intros a b [H|[]]. injection H as <- <-.
      split; [exact Hlen|]. split; [reflexivity|].
      split; [exists n; split; reflexivity | apply Hsig; reflexivity].
    + intros e H. discriminate H.
  - split.
    + intros a b [H|[]]. injection H as <- <-.
      split; [exact Hlen|]. split; [reflexivity|].
      split; [exists n; split; reflexivity | apply Hsig; reflexivity].
    + intros e [= <-] Hne. contradiction.
Qed.

(** X11. While the connection to the chain endpoint is not established,
    [generateClaimSignature] neither returns nor throws a connection
    error: once the wallet constructor has accepted the key the call
    stays pending at the [await], having hashed and signed nothing. Only
    a key that the wallet constructor rejects makes it throw, before the
    connection is attempted. *)
Theorem nothing_is_signed_without_connection
    (C : Collaborators) (key s : string) :
  let r := generateClaimSignature C false key s in
  (Wallet_new C key = None -> r = ([EWallet key], Threw InvalidPrivateKey))
  /\ (forall wallet, Wallet_new C key = Some wallet ->
        r = ([EWallet key; EConnect rpcEndpoint], Pending))
  /\ (forall cs, result r <> Returned cs)
  /\ (forall e, result r = Threw e ->
        e = InvalidPrivateKey /\ Wallet_new C key = None)
  /\ (forall m, ~ In (EKeccak256 m) (trace r))
  /\ (forall k d, ~ In (ESign k d) (trace r)).
Proof.
  intros r. subst r.
  destruct (message_exists C s) as [message Hm].
  rewrite (generateClaimSignature_cases C false key s message Hm).
  destruct (Wallet_new C key) as [wallet|]; cbv zeta; cbn [trace result fst snd].
  - split; [intros H; discriminate H|].
    split; [intros w _; reflexivity|].
    split; [intros cs H; discriminate H|].
    split; [intros e H; discriminate H|].
    split; [intros m [H|[H|[]]]; discriminate H
           | intros k d [H|[H|[]]]; discriminate H].
  - split; [intros _; reflexivity|].
    split; [intros w H; discriminate H|].
    split; [intros cs H; discriminate H|].
    split; [intros e [= <-]; split; reflexivity|].
    split; [intros m [H|[]]; discriminate H
           | intros k d [H|[]]; discriminate H].
Qed.

(** ** [sendAndWaitForSuccess] *)

Section SendAndWaitFacts.

Import Register.

Lemma forEachEvent_settled evs : forall p,
  p <> Pending -> fst (forEachEvent p evs) = p.
Proof.
  induction evs as [|ev evs IH]; intros p Hp; [reflexivity|].
  cbn [forEachEvent].
  destruct (String.eqb _ _); [|apply IH; exact Hp].
  destruct (String.eqb _ _); [apply IH; exact Hp|].
  destruct (String.eqb _ _); [|apply IH; exact Hp].
  destruct (decodes ev); [|reflexivity].
  replace (reject TransactionFailed p) with p
    by (destruct p; [contradiction | reflexivity | reflexivity]).
  apply IH. exact Hp.
Qed.

(** The promise after one run of the callback's loop and of the
    [resolve()] that follows it when no exception left the loop. *)
Lemma loop_then_resolve_settled evs p :
  p <> Pending ->
  (let '(p', threw) := forEachEvent p evs in
   if threw then p' else resolve p') = p.
Proof.
  intros Hp. pose proof (forEachEvent_settled evs p Hp) as H.
  destruct (forEachEvent p evs) as [p' threw]. cbn in H. subst p'.
  destruct threw; [reflexivity|].
  destruct p; [contradiction | reflexivity | reflexivity].
Qed.

Lemma find_failed_skip ev evs :
  isExtrinsicFailed ev = false ->
  List.find isExtrinsicFailed (ev :: evs) = List.find isExtrinsicFailed evs.
Proof. intros H. cbn [List.find]. rewrite H. reflexivity. Qed.

Lemma loop_then_resolve_pending evs :
  (let '(p', threw) := forEachEvent Pending evs in
   if threw then p' else resolve p')
  = match List.find isExtrinsicFailed evs with
    | None => Fulfilled
    | Some ev => if decodes ev then Rejected TransactionFailed else Pending
    end.
Proof.
  induction evs as [|ev evs IH]; [reflexivity|].
  cbn [forEachEvent].
  destruct (String.eqb (ev_section ev) "system") eqn:Es.
  2:{ rewrite find_failed_skip
        by (unfold isExtrinsicFailed; rewrite Es; reflexivity).
      exact IH. }
  destruct (String.eqb (ev_method ev) "ExtrinsicSuccess") eqn:E1.
  { rewrite find_failed_skip.
    - exact IH.
    - unfold isExtrinsicFailed. apply String.eqb_eq in E1. rewrite E1.
      apply andb_false_r. }
  destruct (String.eqb (ev_method ev) "ExtrinsicFailed") eqn:E2.
  2:{ rewrite find_failed_skip
        by (unfold isExtrinsicFailed; rewrite E2; apply andb_false_r).
      exact IH. }
  assert (Hf : isExtrinsicFailed ev = true)
    by (unfold isExtrinsicFailed; rewrite Es, E2; reflexivity).
  cbn [List.find]. rewrite Hf.
  destruct (decodes ev); [|reflexivity].
  apply loop_then_resolve_settled. discriminate.
Qed.

Lemma statusCallback_settled c p u : p <> Pending -> statusCallback c p u = p.
Proof.
  intros Hp. unfold statusCallback.
  destruct (_ || _); [|reflexivity].
  destruct c; [apply loop_then_resolve_settled; exact Hp|].
  destruct p; [contradiction | reflexivity | reflexivity].
Qed.

Lemma statusCallbacks_settled c us : forall p,
  p <> Pending -> foldl (statusCallback c) p us = p.
Proof.
  induction us as [|u us IH]; intros p Hp; [reflexivity|].
  cbn [foldl]. rewrite (statusCallback_settled c p u Hp). apply IH. exact Hp.
Qed.

(** One run of the callback on a pending promise. *)
Lemma statusCallback_pending c u :
  statusCallback c Pending u
  = if included u then
      if c then
        match List.find isExtrinsicFailed (events u) with
        | None => Fulfilled
        | Some ev =>
            if decodes ev then Rejected TransactionFailed else Pending
        end
      else Fulfilled
    else Pending.
Proof.
  unfold statusCallback, included.
  destruct (_ || _); [|reflexivity].
  destruct c; [apply loop_then_resolve_pending | reflexivity].
Qed.

(** The promise after the first update is that update's verdict when it
    settles the promise, and otherwise left to the later updates. *)
Lemma sendAndWaitForSuccess_cons c u us :
  sendAndWaitForSuccess c (StatusUpdates (u :: us))
  = match statusCallback c Pending u with
    | Pending => sendAndWaitForSuccess c (StatusUpdates us)
    | p => p
    end.
Proof.
  cbn [sendAndWaitForSuccess foldl].
  destruct (statusCallback c Pending u) eqn:E; [reflexivity| |];
    apply statusCallbacks_settled; discriminate.
Qed.

Lemma sendAndWaitForSuccess_skip c pre : forall us,
  forallb (fun v => negb (included v)) pre = true ->
  sendAndWaitForSuccess c (StatusUpdates (pre ++ us))
  = sendAndWaitForSuccess c (StatusUpdates us).
Proof.
  induction pre as [|v pre IH]; intros us Hpre; [reflexivity|].
  cbn [forallb] in Hpre. apply andb_true_iff in Hpre as [Hv Hpre].
  apply negb_true_iff in Hv.
  change ((v :: pre) ++ us) with (v :: pre ++ us).
  rewrite sendAndWaitForSuccess_cons, statusCallback_pending, Hv.
  apply IH. exact Hpre.
Qed.

End SendAndWaitFacts.

(** X12. With event checking on, the promise of [sendAndWaitForSuccess]
    stays pending while no status update is in a block or finalized. The
    first update that is decides as follows, whatever comes after it: no
    [system.ExtrinsicFailed] event, the promise is fulfilled; the first
    such event has a dispatch error that the callback can read (no
    module error, or one that the registry knows), the promise is
    rejected; otherwise an exception leaves the callback before
    [reject] and [resolve], this update settles nothing, and the promise
    is what the later updates make of it. *)
Theorem first_included_update_settles
    (pre post : list Register.statusUpdate) (u : Register.statusUpdate) :
  forallb (fun v => negb (Register.included v)) pre = true ->
  Register.included u = true ->
  Register.sendAndWaitForSuccess true
    (Register.StatusUpdates (pre ++ u :: post))
  = match List.find Register.isExtrinsicFailed (Register.events u) with
    | None => Register.Fulfilled
    | Some ev =>
        if Register.decodes ev
        then Register.Rejected Register.TransactionFailed
        else Register.sendAndWaitForSuccess true
               (Register.StatusUpdates post)
    end
  /\ Register.sendAndWaitForSuccess true (Register.StatusUpdates pre)
     = Register.Pending.
Proof.
  intros Hpre Hu. split.
  - rewrite (sendAndWaitForSuccess_skip true pre _ Hpre).
    rewrite sendAndWaitForSuccess_cons, statusCallback_pending, Hu.
    destruct (List.find _ _) as [ev|]; [|reflexivity].
    destruct (Register.decodes ev); reflexivity.
  - pose proof (sendAndWaitForSuccess_skip true pre [] Hpre) as H.
    rewrite app_nil_r in H. exact H.
Qed.

Lemma first_included_update_settles_witness :
  let failed known :=
    {| Register.ev_section := "system";
       Register.ev_method := "ExtrinsicFailed";
       Register.ev_data := Some {| Register.isModule := true;
                                   Register.metaErrorKnown := known |} |} in
  let update inBlock evs :=
    {| Register.isInBlock := inBlock;
       Register.isFinalized := false;
       Register.events := evs |} in
  Register.sendAndWaitForSuccess true
    (Register.StatusUpdates
       ([update false []] ++ update true [failed true] :: [update true []]))
  = Register.Rejected Register.TransactionFailed
  /\ Register.sendAndWaitForSuccess true
       (Register.StatusUpdates
          ([update false []] ++ update true [failed false]
           :: [update true []]))
     = Register.Fulfilled.
Proof.
  intros failed update. split.
  - exact (proj1 (first_included_update_settles [update false []]
                    [update true []] (update true [failed true])
                    eq_refl eq_refl)).
  - exact (proj1 (first_included_update_settles [update false []]
                    [update true []] (update true [failed false])
                    eq_refl eq_refl)).
Defined.

(** X13. With event checking off, as [fundPalletAccount] calls it, the
    promise of [sendAndWaitForSuccess] is never rejected by what the
    chain reports: it is fulfilled as soon as one update is in a block
    or finalized, even when that update carries a
    [system.ExtrinsicFailed] event, and pending otherwise. It is rejected
    only when [signAndSend] itself rejects. *)
Theorem unchecked_wait_never_reports_failure
    (updates : list Register.statusUpdate) :
  Register.sendAndWaitForSuccess false (Register.StatusUpdates updates)
  = (if existsb Register.included updates
     then Register.Fulfilled else Register.Pending)
  /\ (forall c, Register.sendAndWaitForSuccess c Register.SendRejected
                = Register.Rejected Register.SignAndSendError)
  /\ (forall c e,
        Register.sendAndWaitForSuccess c (Register.StatusUpdates updates)
        = Register.Rejected e ->
        c = true /\ e = Register.TransactionFailed
        /\ exists u, In u updates
                     /\ existsb Register.isExtrinsicFailed (Register.events u)
                        = true).
Proof.
  split; [|split].
  - induction updates as [|u us IH]; [reflexivity|].
    rewrite sendAndWaitForSuccess_cons, statusCallback_pending.
    cbn [existsb]. destruct (Register.included u); [reflexivity|].
    exact IH.
  - intros c. reflexivity.
  - intros c e. induction updates as [|u us IH]; [discriminate|].
    rewrite sendAndWaitForSuccess_cons, statusCallback_pending.
    destruct (Register.included u).
    + destruct c; [|discriminate].
      destruct (List.find _ _) as [ev|] eqn:Ef; [|discriminate].
      destruct (Register.decodes ev).
      * intros [= <-]. split; [reflexivity|]. split; [reflexivity|].
        exists u. split; [left; reflexivity|].
        apply List.find_some in Ef as [Hin Hf].
        apply existsb_exists. exists ev. split; assumption.
      * intros H. destruct (IH H) as (Hc & He & u' & Hin & Hf).
        split; [exact Hc|]. split; [exact He|].
        exists u'. split; [right; exact Hin | exact Hf].
    + intros H. destruct (IH H) as (Hc & He & u' & Hin & Hf).
      split; [exact Hc|]. split; [exact He|].
      exists u'. split; [right; exact Hin | exact Hf].
Qed.

Section SignatureFormFacts.

Lemma cleanSig_hex_digits d :
  cleanSig (string_of_list_ascii
              (flat_map (fun v => [hexCharacter (Z.shiftr (Z.land v 240) 4);
                                   hexCharacter (Z.land v 15)]) d))
  = flat_map (fun v => [hexCharacter (Z.shiftr (Z.land v 240) 4);
                        hexCharacter (Z.land v 15)]) d.
Proof.
  unfold cleanSig. rewrite chars_string_of_list.
  destruct d as [|v d]; [reflexivity|].
  cbn [flat_map app].
  assert (Hx : Ascii.eqb (hexCharacter (Z.land v 15)) "x" = false).
  { rewrite land_15.
    pose proof (Z.mod_pos_bound v 16 ltac:(lia)) as Hr.
    revert Hr. generalize (v mod 16). apply nibble_ind. intros k Hk.
    do 16 (destruct k as [|k]; [reflexivity|]). lia. }
  rewrite Hx, andb_false_r. reflexivity.
Qed.

End SignatureFormFacts.

(** X14. [submitSignature] treats the three forms of one signature
    alike: the byte array, its hex string with the ["0x"] prefix and its
    hex string without the prefix lead to the same checks, the same bytes
    sent and the same result. *)
Theorem signature_forms_are_equivalent
    (chain : option string) (destAccount : option Z) (b : bytes) :
  bytes_ok b ->
  submitSignature chain destAccount (SigString (hexlify b))
  = submitSignature chain destAccount (SigUint8Array b)
  /\ submitSignature chain destAccount
       (SigString (string_of_list_ascii (drop 2 (chars (hexlify b)))))
     = submitSignature chain destAccount (SigUint8Array b).
Proof.
  intros Hb.
  pose proof (Buffer_from_hex_hexPairs b [] Hb ltac:(cbn; lia)) as Hdec.
  rewrite app_nil_r in Hdec.
  assert (Hstr : drop 2 (chars (hexlify b))
                 = flat_map (fun v => [hexCharacter (Z.shiftr (Z.land v 240) 4);
                                       hexCharacter (Z.land v 15)]) b).
  { unfold hexlify. rewrite chars_string_of_list. reflexivity. }
  rewrite Hstr. unfold submitSignature. split.
  - rewrite cleanSig_hexlify, Hdec. reflexivity.
  - rewrite cleanSig_hex_digits, Hdec. reflexivity.
Qed.

Lemma signature_forms_are_equivalent_witness :
  submitSignature None (Some 7) (SigString (hexlify (replicate 65 200)))
  = submitSignature None (Some 7) (SigUint8Array (replicate 65 200)).
Proof.
  apply (signature_forms_are_equivalent None (Some 7) (replicate 65 200)).
  apply Forall_replicate. unfold is_u8. lia.
Defined.
